(** * txvotepool/reactor.go: the gossip reactor of the transaction-vote pool

    A shallow embedding of [src/txvotepool/reactor.go]: the registry of
    16-bit peer identifiers ([txpoolIDs]), the size-checked decoder
    ([decodeMsg]), the inbound handler ([Receive]) and the per-peer
    broadcast loop ([broadcastTxRoutine]).

    Go's [uint16], [int64] and [int] are integers in [Z] with the
    wrap-around written out; [map[p2p.ID]uint16] is a [gmap string Z] and
    [map[uint16]struct{}] a [gset Z]. *)

From Stdlib Require Import ZArith Lia.
From Stdlib.Strings Require Import Byte.
From stdpp Require Import base gmap strings pretty list fin_maps fin_sets.

Open Scope Z_scope.

(** ** Machine integers *)

(** [uint16] arithmetic wraps modulo 2^16. *)
Definition uint16 (z : Z) : Z := z mod 65536.

(** [int64] arithmetic wraps modulo 2^64 into the signed range. *)
Definition int64 (z : Z) : Z :=
  (z + 9223372036854775808) mod 18446744073709551616 - 9223372036854775808.

Definition is_uint16 (z : Z) : Prop := 0 <= z < 65536.
Definition is_int64 (z : Z) : Prop :=
  -9223372036854775808 <= z < 9223372036854775808.

(** Go's [len] of a map used as a set. *)
Definition len (s : gset Z) : Z := Z.of_nat (size s).

(** ** Constants (reactor.go, lines 20-33) *)

Definition TxpoolChannel : Z := 49. (* byte(0x31) *)
Definition maxMsgSize : Z := 1048576.
Definition maxTxSize : Z := maxMsgSize - 8.
Definition peerCatchupSleepIntervalMS : Z := 100.
Definition UnknownPeerID : Z := 0.
Definition maxActiveIDs : Z := 65535. (* math.MaxUint16 *)

(** ** Results of code that may panic or spin *)

Inductive Outcome (A : Type) : Type :=
| Done (a : A)
| Panic (msg : string)
| Spin.
Arguments Done {A} a.
Arguments Panic {A} msg.
Arguments Spin {A}.

(** ** The peer identifier registry *)

(** Of a [p2p.Peer] the reactor's pure code reads the identity only. *)
Record Peer : Type := mkPeer { ID : string }.

Record txpoolIDs : Type := mkIDs {
  peerMap : gmap string Z;
  nextID : Z;
  activeIDs : gset Z
}.

(** [fmt.Sprintf("node has maximum %d active IDs and wanted to get one
    more", maxActiveIDs)]. *)
Definition panicMsg : string :=
  "node has maximum 65535 active IDs and wanted to get one more".

(** The probing loop of [nextPeerID]:
    [for idExists { ids.nextID++; _, idExists = ids.activeIDs[ids.nextID] }].
    One unit of fuel is one test of [idExists]. *)
Fixpoint probe (fuel : nat) (active : gset Z) (next : Z) : option Z :=
  match fuel with
  | O => None
  | S fuel' =>
      if decide (next ∈ active)
      then probe fuel' active (uint16 (next + 1))
      else Some next
  end.

(** There are 65536 values of [uint16]: a probe that has tested that many
    has tested all of them (lemmas [probe_finds] and [probe_spins]). *)
Definition probeFuel : nat := Z.to_nat 65536.

Definition nextPeerID (ids : txpoolIDs) : Outcome (Z * txpoolIDs) :=
  if decide (len (activeIDs ids) = maxActiveIDs) then Panic panicMsg
  else
    match probe probeFuel (activeIDs ids) (nextID ids) with
    | None => Spin
    | Some curID =>
        Done (curID, mkIDs (peerMap ids) (uint16 (curID + 1)) (activeIDs ids))
    end.

Definition ReserveForPeer (ids : txpoolIDs) (peer : Peer) : Outcome txpoolIDs :=
  match nextPeerID ids with
  | Done (curID, ids') =>
      Done (mkIDs (<[ID peer := curID]> (peerMap ids'))
                  (nextID ids')
                  ({[curID]} ∪ activeIDs ids'))
  | Panic msg => Panic msg
  | Spin => Spin
  end.

Definition Reclaim (ids : txpoolIDs) (peer : Peer) : txpoolIDs :=
  match peerMap ids !! ID peer with
  | Some removedID =>
      mkIDs (delete (ID peer) (peerMap ids))
            (nextID ids)
            (activeIDs ids ∖ {[removedID]})
  | None => ids
  end.

(** A missing key reads as the zero value. *)
Definition GetForPeer (ids : txpoolIDs) (peer : Peer) : Z :=
  default 0 (peerMap ids !! ID peer).

Definition newTxpoolIDs : txpoolIDs :=
  mkIDs ∅ 1 {[0]}.

(** ** Sequences of registry calls *)

Inductive Call : Type :=
| CallReserve (peer : Peer)
| CallReclaim (peer : Peer).

(** What one reservation handed out: the peer, its new identifier and the
    active set the allocation started from. *)
Record Grant : Type := mkGrant {
  grantPeer : Peer;
  grantID : Z;
  grantBefore : gset Z
}.

Definition call (ids : txpoolIDs) (c : Call) : Outcome (list Grant * txpoolIDs) :=
  match c with
  | CallReserve peer =>
      match ReserveForPeer ids peer with
      | Done ids' =>
          Done ([mkGrant peer (GetForPeer ids' peer) (activeIDs ids)], ids')
      | Panic msg => Panic msg
      | Spin => Spin
      end
  | CallReclaim peer => Done ([], Reclaim ids peer)
  end.

Fixpoint calls (ids : txpoolIDs) (cs : list Call) : Outcome (list Grant * txpoolIDs) :=
  match cs with
  | [] => Done ([], ids)
  | c :: cs' =>
      match call ids c with
      | Done (gs, ids') =>
          match calls ids' cs' with
          | Done (gs', ids'') => Done (gs ++ gs', ids'')
          | Panic msg => Panic msg
          | Spin => Spin
          end
      | Panic msg => Panic msg
      | Spin => Spin
      end
  end.

(** The image of the peer map. *)
Definition mappedIDs (ids : txpoolIDs) : gset Z := map_img (peerMap ids).

(** Reservations follow the reactor's lifecycle when no peer that holds an
    identifier is reserved again before it is reclaimed; [connected] is
    the set of peers holding one. *)
Fixpoint onceEach (connected : gset string) (cs : list Call) : bool :=
  match cs with
  | [] => true
  | CallReserve peer :: cs' =>
      bool_decide (ID peer ∉ connected) && onceEach ({[ID peer]} ∪ connected) cs'
  | CallReclaim peer :: cs' => onceEach (connected ∖ {[ID peer]}) cs'
  end.

(** States of the registry that a run of the program can be in. *)
Inductive reachable : txpoolIDs → Prop :=
| reachable_new : reachable newTxpoolIDs
| reachable_reserve ids peer ids' :
    reachable ids → ReserveForPeer ids peer = Done ids' → reachable ids'
| reachable_reclaim ids peer :
    reachable ids → reachable (Reclaim ids peer).

(** ** The reactor *)

(** A value of Go's [error], by its message. *)
Definition error : Type := string.

Record MempoolConfig : Type := mkConfig { Broadcast : bool }.

Record TxVoteInfo : Type := mkInfo { PeerID : Z }.

(** A handle on an element of the pool's concurrent list. *)
Definition CElement : Type := nat.

(** What a [select] woke up on: the awaited channel (with the value read
    right after it), the peer's quit channel or the reactor's. *)
Inductive Woken (A : Type) : Type :=
| Ready (a : A)
| PeerQuit
| ReactorQuit.
Arguments Ready {A} a.
Arguments PeerQuit {A}.
Arguments ReactorQuit {A}.

(** Of a [p2p.ChannelDescriptor] the reactor sets two fields. *)
Module p2p.
Record ChannelDescriptor : Type := mkChannel { ID : Z; Priority : Z }.
End p2p.

Definition GetChannels : list p2p.ChannelDescriptor :=
  [p2p.mkChannel TxpoolChannel 5].

(** A [select] that woke up on one of the quit channels. *)
Definition quit {A : Type} (w : Woken A) : bool :=
  match w with
  | Ready _ => false
  | PeerQuit | ReactorQuit => true
  end.

Module Reactor.
Section Reactor.

(** [types.TxVote], the payload the reactor passes on unread. *)
Context {TxVote : Type}.

(** [TxpoolMessage] is [interface{}]; [TxMessage] is the one registered
    concrete type, [OtherMessage] any other dynamic type. *)
Inductive TxpoolMessage : Type :=
| TxMessage (Tx : TxVote)
| OtherMessage.

Inductive DecodeError : Type :=
| ExceedsMaxSize (size max : Z)  (* "Msg exceeds max size (%d > %d)" *)
| Codec (err : error).

(** The amino codec [cdc] and the pool's [CheckTxWithInfo] are not part
    of the reactor: they are what it is run against. *)
Variable UnmarshalBinaryBare : list byte → TxpoolMessage + error.
Variable MustMarshalBinaryBare : TxpoolMessage → list byte.
Variable CheckTxWithInfo : TxVote → TxVoteInfo → option error.

Definition lenBytes (bz : list byte) : Z := Z.of_nat (length bz).

Definition decodeMsg (bz : list byte) : TxpoolMessage + DecodeError :=
  if decide (lenBytes bz > maxMsgSize)
  then inr (ExceedsMaxSize (lenBytes bz) maxMsgSize)
  else
    match UnmarshalBinaryBare bz with
    | inl msg => inl msg
    | inr err => inr (Codec err)
    end.

(** Modelled from the spec: the pool's entry type [mempoolTxVote] is
    declared outside reactor.go; a pending entry has the transaction
    payload, the height at which it was accepted and the set of PeerIDs
    known to possess it. *)
Record mempoolTxVote : Type := mkEntry {
  tx : TxVote;
  height : Z;
  senders : gset Z
}.

(** What the reactor does to the world around it, in order. *)
Inductive Effect : Type :=
| ELogError (what : string)
| ELogInfo (what : string)
| ELogDebug (what : string)
| EStopPeerForError (src : Peer) (err : DecodeError)
| ECheckTxWithInfo (Tx : TxVote) (info : TxVoteInfo)
| EGoBroadcast (peer : Peer)
| ETxsFront
| ESleep (ms : Z)
| ESend (peer : Peer) (chID : Z) (msgBytes : list byte).

Record TxpoolReactor : Type := mkReactor {
  config : MempoolConfig;
  ids : txpoolIDs
}.

Definition NewTxpoolReactor (config : MempoolConfig) : TxpoolReactor :=
  mkReactor config newTxpoolIDs.

Definition OnStart (txR : TxpoolReactor) : list Effect :=
  if negb (Broadcast (config txR))
  then [ELogInfo "Tx broadcasting is disabled"]
  else [].

Definition AddPeer (txR : TxpoolReactor) (peer : Peer)
  : Outcome (TxpoolReactor * list Effect) :=
  match ReserveForPeer (ids txR) peer with
  | Done ids' => Done (mkReactor (config txR) ids', [EGoBroadcast peer])
  | Panic msg => Panic msg
  | Spin => Spin
  end.

Definition RemovePeer (txR : TxpoolReactor) (peer : Peer) : TxpoolReactor :=
  mkReactor (config txR) (Reclaim (ids txR) peer).

Definition Receive (txR : TxpoolReactor) (chID : Z) (src : Peer)
    (msgBytes : list byte) : TxpoolReactor * list Effect :=
  match decodeMsg msgBytes with
  | inr err =>
      (txR, [ELogError "Error decoding message"; EStopPeerForError src err])
  | inl msg =>
      (txR,
       ELogDebug "Receive" ::
       match msg with
       | TxMessage Tx =>
           let peerID := GetForPeer (ids txR) src in
           ECheckTxWithInfo Tx (mkInfo peerID) ::
           match CheckTxWithInfo Tx (mkInfo peerID) with
           | Some _ => [ELogInfo "Could not check tx"]
           | None => []
           end
       | OtherMessage => [ELogError "Unknown message type"]
       end)
  end.

(** *** The broadcast loop *)

(** What one pass through the loop body observes of the pool, the peer
    and the switch, which all change under it. *)
Record Pass : Type := mkPass {
  reactorRunning : bool;                 (* txR.IsRunning() *)
  peerRunning : bool;                    (* peer.IsRunning() *)
  frontWake : Woken (option CElement);   (* TxsWaitChan, then TxsFront() *)
  pool : CElement → mempoolTxVote;       (* next.Value *)
  peerHeight : option Z;                 (* peer.Get(PeerStateKey), GetHeight() *)
  sendOK : bool;                         (* what peer.Send returns *)
  nextWake : Woken (option CElement)     (* NextWaitChan, then next.Next() *)
}.

(** How a pass ends: [continue] (or the end of the body) with the value
    of [next], or [return]. *)
Inductive Flow : Type :=
| Continue (next : option CElement)
| Return.

Definition catchupSleep : Effect := ESleep peerCatchupSleepIntervalMS.

(** The final [select] of the body. *)
Definition advance (p : Pass) : Flow :=
  match nextWake p with
  | Ready next => Continue next
  | PeerQuit | ReactorQuit => Return
  end.

(** The body from the read of [next.Value] into [txTx] on. *)
Definition examine (peer : Peer) (peerID : Z) (p : Pass) (e : CElement)
  : list Effect * Flow :=
  let txTx := pool p e in
  match peerHeight p with
  | None => ([catchupSleep], Continue (Some e))
  | Some h =>
      if decide (h < int64 (height txTx - 1))
      then ([catchupSleep], Continue (Some e))
      else if decide (peerID ∈ senders txTx)
      then ([], advance p)
      else
        let msg := TxMessage (tx txTx) in
        let send := ESend peer TxpoolChannel (MustMarshalBinaryBare msg) in
        if sendOK p
        then ([send], advance p)
        else ([send; catchupSleep], Continue (Some e))
  end.

Definition pass (peer : Peer) (peerID : Z) (next : option CElement) (p : Pass)
  : list Effect * Flow :=
  if negb (reactorRunning p) || negb (peerRunning p) then ([], Return)
  else
    match next with
    | Some e => examine peer peerID p e
    | None =>
        match frontWake p with
        | Ready None => ([ETxsFront], Continue None)
        | Ready (Some e) =>
            let '(effects, flow) := examine peer peerID p e in
            (ETxsFront :: effects, flow)
        | PeerQuit | ReactorQuit => ([], Return)
        end
    end.

(** Where the routine is once the passes it was shown are over: it has
    returned, or it is still in its loop with the cursor at [next]. *)
Inductive Routine : Type :=
| Returned
| Looping (next : option CElement).

(** The [for] loop, run against the observations of its passes. *)
Fixpoint loop (peer : Peer) (peerID : Z) (next : option CElement)
    (ps : list Pass) : list Effect * Routine :=
  match ps with
  | [] => ([], Looping next)
  | p :: ps' =>
      let '(effects, flow) := pass peer peerID next p in
      match flow with
      | Continue next' =>
          let '(effects', routine) := loop peer peerID next' ps' in
          (effects ++ effects', routine)
      | Return => (effects, Returned)
      end
  end.

Definition broadcastTxRoutine (txR : TxpoolReactor) (peer : Peer)
    (ps : list Pass) : list Effect * Routine :=
  if negb (Broadcast (config txR)) then ([], Returned)
  else loop peer (GetForPeer (ids txR) peer) None ps.

(** The pass examines entry [e]: reactor and peer are running and [e] is
    the cursor, or the cursor is unset and [e] is the front of the pool. *)
Definition examines (next : option CElement) (p : Pass) (e : CElement) : Prop :=
  reactorRunning p = true ∧ peerRunning p = true ∧
  (next = Some e ∨ (next = None ∧ frontWake p = Ready (Some e))).

(** The pass shows the routine a reason to return: reactor or peer have
    stopped, or a quit channel fires in one of its [select]s. *)
Definition shutdownSeen (p : Pass) : bool :=
  negb (reactorRunning p) || negb (peerRunning p) ||
  quit (frontWake p) || quit (nextWake p).

Definition isSend (eff : Effect) : bool :=
  match eff with ESend _ _ _ => true | _ => false end.
Definition isTxsFront (eff : Effect) : bool :=
  match eff with ETxsFront => true | _ => false end.
Definition isCheckTx (eff : Effect) : bool :=
  match eff with ECheckTxWithInfo _ _ => true | _ => false end.
Definition isStopPeer (eff : Effect) : bool :=
  match eff with EStopPeerForError _ _ => true | _ => false end.

End Reactor.
End Reactor.
Import Reactor.

(** ** Auxiliary notions of the proofs *)

(** Every value of [uint16]. *)
Definition allIDs : gset Z := list_to_set (seqZ 0 65536).

(** What holds of the registry in every state the program reaches. *)
Record sound (ids : txpoolIDs) : Prop := mkSound {
  sound_zero : 0 ∈ activeIDs ids;
  sound_active : ∀ i, i ∈ activeIDs ids → is_uint16 i;
  sound_next : is_uint16 (nextID ids);
  sound_mapped : ∀ p i, peerMap ids !! p = Some i → i ∈ activeIDs ids ∧ i ≠ 0;
  sound_inj : ∀ p q i, peerMap ids !! p = Some i → peerMap ids !! q = Some i → p = q;
  sound_room : len (activeIDs ids) <= maxActiveIDs
}.

(** The registry as the reactor's lifecycle keeps it: every active
    identifier but 0 belongs to a peer. *)
Definition tight (ids : txpoolIDs) : Prop :=
  activeIDs ids = mappedIDs ids ∪ {[0]}.

(** [firstFree ids curID]: probing forward from the cursor, with
    wrap-around, [curID] is the first identifier that is not active. *)
Definition firstFree (ids : txpoolIDs) (curID : Z) : Prop :=
  (curID ∉ activeIDs ids) ∧ is_uint16 curID ∧
  ∃ k, 0 <= k < 65536 ∧ curID = uint16 (nextID ids + k) ∧
       ∀ j, 0 <= j < k → uint16 (nextID ids + j) ∈ activeIDs ids.

(** The [n]-th of a supply of distinct peers. *)
Definition peerNo (n : nat) : Peer := mkPeer (pretty n).

(** A grant is in order when the identifier is one of 1..65535 and was
    not active when it was handed out. *)
Definition freshGrant (g : Grant) : Prop :=
  1 <= grantID g <= 65535 ∧ grantID g ∉ grantBefore g.

(** The registry after the first [n] peers of the supply were reserved
    from new. *)
Fixpoint crowdMap (n : nat) : gmap string Z :=
  match n with
  | O => ∅
  | S n' => <[ID (peerNo n') := Z.of_nat n' + 1]> (crowdMap n')
  end.

Definition crowd (n : nat) : txpoolIDs :=
  mkIDs (crowdMap n) (Z.of_nat n + 1) (list_to_set (seqZ 0 (Z.of_nat n + 1))).

(** 65534 peers hold the identifiers 1..65534; 65535 is free. *)
Definition crowded : txpoolIDs := crowd (Z.to_nat 65534).

(** Peer "a" was reserved twice in a row. *)
Definition leaky : txpoolIDs :=
  mkIDs {["a" := 2]} 3 {[0; 1; 2]}.

(** Peers "a", "b", "c" were reserved, then "a" was reclaimed. *)
Definition churned : txpoolIDs :=
  mkIDs {["b" := 2; "c" := 3]} 4 {[0; 2; 3]}.

(** ** A small codec, pool and peer to run the reactor against *)

(** Transactions are their own encoding; the empty frame does not decode. *)
Definition demoUnmarshal (bz : list byte) : @TxpoolMessage (list byte) + error :=
  match bz with
  | [] => inr "EOF"
  | _ => inl (TxMessage bz)
  end.

Definition demoMarshal (msg : @TxpoolMessage (list byte)) : list byte :=
  match msg with
  | TxMessage Tx => Tx
  | OtherMessage => []
  end.

(** The pool rejects the transactions that start with a zero byte. *)
Definition demoCheckTx (Tx : list byte) (info : TxVoteInfo) : option error :=
  match Tx with
  | x00 :: _ => Some "rejected"
  | _ => None
  end.

(** A frame of exactly [maxMsgSize] bytes. *)
Definition bigFrame : list byte := repeat x01 (Z.to_nat 1048576).

(** An entry of height 7 that the peer with identifier 1 sent in. *)
Definition demoEntry : @mempoolTxVote (list byte) := mkEntry [x01] 7 {[1]}.

(** A pass in which reactor and peer run, entry 0 is [demoEntry], the
    peer reports [h], sending works and entry 0 has no successor yet. *)
Definition demoPass (h : option Z) : @Pass (list byte) :=
  mkPass true true (Ready (Some 0%nat)) (λ _, demoEntry) h true (Ready None).

(** A pass like [demoPass] in which the successor of entry 0, entry 1,
    is signalled. *)
Definition movingPass (h : option Z) : @Pass (list byte) :=
  mkPass true true (Ready (Some 0%nat)) (λ _, demoEntry) h true
         (Ready (Some 1%nat)).

(** A reactor with broadcasting off. *)
Definition quietReactor : TxpoolReactor := mkReactor (mkConfig false) churned.

(** * Facts about the registry *)

(** ** Wrap-around *)

Lemma uint16_range z : is_uint16 (uint16 z).
Proof. unfold is_uint16, uint16. apply Z.mod_pos_bound. lia. Qed.

Lemma uint16_id z : is_uint16 z → uint16 z = z.
Proof. unfold is_uint16, uint16. intros Hz. by apply Z.mod_small. Qed.

Lemma uint16_step next d : uint16 (uint16 (next + 1) + d) = uint16 (next + (d + 1)).
Proof.
  unfold uint16. rewrite Zplus_mod_idemp_l. f_equal. lia.
Qed.

Lemma int64_id z : is_int64 z → int64 z = z.
Proof.
  unfold is_int64, int64. intros Hz. rewrite Z.mod_small; lia.
Qed.

(** ** The probing loop *)

(** A probe that returns has found the first free identifier at or after
    the cursor, in the cyclic order of [uint16]. *)
Lemma probe_found fuel active next r :
  is_uint16 next →
  probe fuel active next = Some r →
  (r ∉ active) ∧ is_uint16 r ∧
  ∃ k, 0 <= k < Z.of_nat fuel ∧ r = uint16 (next + k) ∧
       ∀ j, 0 <= j < k → uint16 (next + j) ∈ active.
Proof.
  revert next. induction fuel as [|fuel IH]; intros next Hnext Hp; [done|].
  cbn [probe] in Hp. destruct (decide (next ∈ active)) as [Hin|Hout].
  - apply IH in Hp as (Hr & Hr16 & k & Hk & -> & Hbusy); [|apply uint16_range].
    split; [done|]. split; [done|]. exists (k + 1). split; [lia|].
    split; [apply uint16_step|]. intros j Hj.
    destruct (decide (j = 0)) as [->|Hj0].
    + rewrite Z.add_0_r, uint16_id; done.
    + replace j with ((j - 1) + 1) by lia. rewrite <- uint16_step.
      apply Hbusy. lia.
  - injection Hp as <-. split; [done|]. split; [done|]. exists 0.
    split; [lia|]. split; [by rewrite Z.add_0_r, uint16_id|]. lia.
Qed.

(** A free identifier within reach of the fuel makes the probe return. *)
Lemma probe_finds fuel active next d :
  is_uint16 next →
  0 <= d < Z.of_nat fuel →
  uint16 (next + d) ∉ active →
  is_Some (probe fuel active next).
Proof.
  revert next d. induction fuel as [|fuel IH]; intros next d Hnext Hd Hfree; [lia|].
  cbn [probe]. destruct (decide (next ∈ active)) as [Hin|Hout]; [|by eexists].
  assert (d ≠ 0) as Hd0.
  { intros ->. rewrite Z.add_0_r, uint16_id in Hfree; done. }
  apply (IH _ (d - 1)); [apply uint16_range|lia|].
  rewrite uint16_step. by replace (d - 1 + 1) with d by lia.
Qed.

(** With every identifier active the loop of [nextPeerID] never exits:
    no amount of fuel makes the probe return. *)
Lemma probe_spins fuel active next :
  (∀ i, is_uint16 i → i ∈ active) →
  is_uint16 next →
  probe fuel active next = None.
Proof.
  intros Hfull. revert next. induction fuel as [|fuel IH]; intros next Hnext; [done|].
  cbn [probe]. rewrite decide_True by (auto). apply IH, uint16_range.
Qed.

(** ** Counting identifiers *)

Lemma elem_of_allIDs i : i ∈ allIDs ↔ is_uint16 i.
Proof.
  unfold allIDs, is_uint16. rewrite elem_of_list_to_set, elem_of_seqZ. lia.
Qed.

Lemma len_allIDs : len allIDs = 65536.
Proof.
  unfold len, allIDs. rewrite size_list_to_set by (apply NoDup_seqZ).
  rewrite length_seqZ. lia.
Qed.

#[global] Opaque allIDs.

(** Fewer than 65536 active identifiers leave one free. *)
Lemma free_id (active : gset Z) :
  (∀ i, i ∈ active → is_uint16 i) →
  len active < 65536 →
  ∃ i, is_uint16 i ∧ i ∉ active.
Proof.
  intros Hrange Hlen.
  assert (active ⊆ allIDs) as Hsub.
  { intros i Hi. rewrite elem_of_allIDs. auto. }
  destruct (size_pos_elem_of (allIDs ∖ active)) as [i Hi].
  { rewrite (size_difference _ _ Hsub). pose proof len_allIDs as Hall.
    unfold len in Hlen, Hall. lia. }
  exists i. rewrite elem_of_difference, elem_of_allIDs in Hi. tauto.
Qed.

Lemma len_insert_fresh (active : gset Z) i :
  i ∉ active → len ({[i]} ∪ active) = len active + 1.
Proof.
  intros Hi. unfold len. rewrite size_union by (set_solver).
  rewrite size_singleton. lia.
Qed.

Lemma len_remove (active : gset Z) i :
  i ∈ active → len (active ∖ {[i]}) = len active - 1.
Proof.
  intros Hi. unfold len. rewrite size_difference by (set_solver).
  rewrite size_singleton.
  assert (size active ≠ 0%nat).
  { intros H0. apply size_empty_inv in H0. set_solver. }
  lia.
Qed.

(** ** One call of [nextPeerID] and of [ReserveForPeer] *)

Lemma probeFuel_eq : Z.of_nat probeFuel = 65536.
Proof. unfold probeFuel. lia. Qed.

#[global] Opaque probeFuel.

Lemma nextPeerID_panic ids :
  len (activeIDs ids) = maxActiveIDs → nextPeerID ids = Panic panicMsg.
Proof. intros Hlen. unfold nextPeerID. by rewrite decide_True. Qed.

Lemma nextPeerID_done ids :
  sound ids →
  len (activeIDs ids) ≠ maxActiveIDs →
  ∃ curID,
    nextPeerID ids
    = Done (curID, mkIDs (peerMap ids) (uint16 (curID + 1)) (activeIDs ids))
    ∧ firstFree ids curID.
Proof.
  intros Hs Hlen. unfold nextPeerID. rewrite decide_False by (done).
  pose proof (sound_room _ Hs) as Hroom. unfold maxActiveIDs in *.
  destruct (free_id (activeIDs ids)) as (i & Hi16 & Hi);
    [apply (sound_active _ Hs)|lia|].
  destruct (probe_finds probeFuel (activeIDs ids) (nextID ids)
              ((i - nextID ids) mod 65536)) as [curID Hp].
  - apply (sound_next _ Hs).
  - rewrite probeFuel_eq. apply Z.mod_pos_bound. lia.
  - unfold uint16. rewrite Zplus_mod_idemp_r.
    replace (nextID ids + (i - nextID ids)) with i by lia.
    fold (uint16 i). by rewrite uint16_id.
  - rewrite Hp. exists curID. split; [done|].
    apply probe_found in Hp as (? & ? & k & Hk & ? & ?);
      [|apply (sound_next _ Hs)].
    rewrite probeFuel_eq in Hk. unfold firstFree. eauto 10.
Qed.

Lemma ReserveForPeer_panic ids peer :
  len (activeIDs ids) = maxActiveIDs → ReserveForPeer ids peer = Panic panicMsg.
Proof. intros Hlen. unfold ReserveForPeer. by rewrite nextPeerID_panic. Qed.

Lemma ReserveForPeer_done ids peer :
  sound ids →
  len (activeIDs ids) ≠ maxActiveIDs →
  ∃ curID,
    ReserveForPeer ids peer
    = Done (mkIDs (<[ID peer := curID]> (peerMap ids))
                  (uint16 (curID + 1))
                  ({[curID]} ∪ activeIDs ids))
    ∧ firstFree ids curID.
Proof.
  intros Hs Hlen. destruct (nextPeerID_done ids Hs Hlen) as (curID & Hn & Hfree).
  exists curID. split; [|done]. unfold ReserveForPeer. by rewrite Hn.
Qed.

(** A reservation that returns did not start from a full active set, and
    has the shape [ReserveForPeer_done] gives. *)
Lemma ReserveForPeer_inv ids peer ids' :
  sound ids →
  ReserveForPeer ids peer = Done ids' →
  len (activeIDs ids) ≠ maxActiveIDs ∧
  ∃ curID,
    ids' = mkIDs (<[ID peer := curID]> (peerMap ids))
                 (uint16 (curID + 1))
                 ({[curID]} ∪ activeIDs ids)
    ∧ firstFree ids curID.
Proof.
  intros Hs Hr.
  destruct (decide (len (activeIDs ids) = maxActiveIDs)) as [Hfull|Hroom].
  { by rewrite ReserveForPeer_panic in Hr. }
  split; [done|].
  destruct (ReserveForPeer_done ids peer Hs Hroom) as (curID & Hd & Hfree).
  exists curID. split; [congruence|done].
Qed.

(** ** The invariant *)

Lemma sound_new : sound newTxpoolIDs.
Proof.
  split; cbn.
  - set_solver.
  - intros i ->%elem_of_singleton. unfold is_uint16. lia.
  - unfold is_uint16. lia.
  - intros p i Hp. by rewrite lookup_empty in Hp.
  - intros p q i Hp. by rewrite lookup_empty in Hp.
  - unfold len, maxActiveIDs. rewrite size_singleton. lia.
Qed.

Lemma ReserveForPeer_sound ids peer ids' :
  sound ids → ReserveForPeer ids peer = Done ids' → sound ids'.
Proof.
  intros Hs Hr.
  destruct (ReserveForPeer_inv _ _ _ Hs Hr) as (Hroom & curID & -> & Hfree & H16 & _).
  destruct Hs as [Hzero Hact Hnext Hmap Hinj Hlen]. split; cbn.
  - set_solver.
  - intros i [->%elem_of_singleton|Hi]%elem_of_union; auto.
  - apply uint16_range.
  - intros p i Hp. destruct (decide (ID peer = p)) as [<-|Hne].
    + rewrite lookup_insert_eq in Hp. injection Hp as <-.
      split; [set_solver|]. by intros ->.
    + rewrite lookup_insert_ne in Hp by done.
      pose proof (Hmap _ _ Hp) as [? ?]. split; [set_solver|done].
  - intros p q i Hp Hq.
    destruct (decide (ID peer = p)) as [<-|Hnp];
      destruct (decide (ID peer = q)) as [<-|Hnq]; [done|..].
    + rewrite lookup_insert_eq in Hp. rewrite lookup_insert_ne in Hq by done.
      injection Hp as <-. by pose proof (Hmap _ _ Hq) as [? ?].
    + rewrite lookup_insert_eq in Hq. rewrite lookup_insert_ne in Hp by done.
      injection Hq as <-. by pose proof (Hmap _ _ Hp) as [? ?].
    + rewrite lookup_insert_ne in Hp, Hq by done. eauto.
  - rewrite len_insert_fresh by done. lia.
Qed.

Lemma Reclaim_sound ids peer : sound ids → sound (Reclaim ids peer).
Proof.
  intros Hs. unfold Reclaim.
  destruct (peerMap ids !! ID peer) as [removedID|] eqn:Hpeer; [|done].
  destruct Hs as [Hzero Hact Hnext Hmap Hinj Hlen]. split; cbn.
  - pose proof (Hmap _ _ Hpeer) as [? ?]. set_solver.
  - intros i Hi. apply Hact. set_solver.
  - done.
  - intros p i Hp. apply lookup_delete_Some in Hp as [Hne Hp].
    pose proof (Hmap _ _ Hp) as [? ?]. split; [|done].
    apply elem_of_difference. split; [done|].
    intros ->%elem_of_singleton. apply Hne. eauto.
  - intros p q i [_ Hp]%lookup_delete_Some [_ Hq]%lookup_delete_Some. eauto.
  - pose proof (Hmap _ _ Hpeer) as [? ?]. rewrite len_remove by done. lia.
Qed.

Create HintDb registry discriminated.
#[global] Hint Resolve sound_new ReserveForPeer_sound Reclaim_sound : registry.

Lemma reachable_sound ids : reachable ids → sound ids.
Proof. induction 1; eauto with registry. Qed.

(** ** Tightness: the active set is the image of the map, and 0 *)

Lemma tight_new : tight newTxpoolIDs.
Proof.
  unfold tight, mappedIDs. cbn. rewrite map_img_empty_L. set_solver.
Qed.

Lemma ReserveForPeer_tight ids peer ids' :
  sound ids → tight ids →
  peerMap ids !! ID peer = None →
  ReserveForPeer ids peer = Done ids' →
  tight ids'.
Proof.
  intros Hs Ht Hnew Hr.
  destruct (ReserveForPeer_inv _ _ _ Hs Hr) as (_ & curID & -> & _).
  unfold tight, mappedIDs in *. cbn.
  rewrite map_img_insert_notin_L by done. rewrite Ht. set_solver.
Qed.

Lemma Reclaim_tight ids peer : sound ids → tight ids → tight (Reclaim ids peer).
Proof.
  intros Hs Ht. unfold Reclaim.
  destruct (peerMap ids !! ID peer) as [removedID|] eqn:Hpeer; [|done].
  pose proof (sound_mapped _ Hs _ _ Hpeer) as [_ Hnz].
  unfold tight, mappedIDs in *. cbn. rewrite Ht. apply set_eq. intros i.
  rewrite elem_of_difference, !elem_of_union, !elem_of_map_img, !elem_of_singleton.
  split.
  - intros [[[p Hp]| ->] Hne]; [|by right]. left. exists p.
    apply lookup_delete_Some. split; [|done]. intros <-. congruence.
  - intros [[p [Hne Hp]%lookup_delete_Some]| ->]; [|by split; [right|]].
    split; [left; eauto|]. intros ->.
    apply Hne. apply (sound_inj _ Hs _ _ _ Hpeer Hp).
Qed.

#[global] Hint Resolve tight_new ReserveForPeer_tight Reclaim_tight : registry.

(** ** Runs of calls *)

Lemma calls_app ids cs1 cs2 :
  calls ids (cs1 ++ cs2)
  = match calls ids cs1 with
    | Done (gs1, ids1) =>
        match calls ids1 cs2 with
        | Done (gs2, ids2) => Done (gs1 ++ gs2, ids2)
        | Panic msg => Panic msg
        | Spin => Spin
        end
    | Panic msg => Panic msg
    | Spin => Spin
    end.
Proof.
  revert ids. induction cs1 as [|c cs1 IH]; intros ids; cbn [calls app].
  - by destruct (calls ids cs2) as [[gs2 ids2]| |].
  - destruct (call ids c) as [[gs ids']| |]; [|done..]. rewrite IH.
    destruct (calls ids' cs1) as [[gs1 ids1]| |]; [|done..].
    destruct (calls ids1 cs2) as [[gs2 ids2]| |]; [|done..].
    by rewrite app_assoc.
Qed.

(** A run that returns splits into its first call and the rest. *)
Lemma calls_cons_inv ids c cs gs ids' :
  calls ids (c :: cs) = Done (gs, ids') →
  ∃ gs1 ids1 gs2,
    call ids c = Done (gs1, ids1) ∧ calls ids1 cs = Done (gs2, ids') ∧
    gs = gs1 ++ gs2.
Proof.
  cbn [calls]. intros Hc.
  destruct (call ids c) as [[gs1 ids1]| |] eqn:Hc1; [|done..].
  destruct (calls ids1 cs) as [[gs2 ids2]| |] eqn:Hc2; [|done..].
  injection Hc as <- <-. by exists gs1, ids1, gs2.
Qed.

Lemma call_reserve_inv ids peer gs ids' :
  call ids (CallReserve peer) = Done (gs, ids') →
  ReserveForPeer ids peer = Done ids' ∧
  gs = [mkGrant peer (GetForPeer ids' peer) (activeIDs ids)].
Proof.
  cbn [call]. intros Hc.
  destruct (ReserveForPeer ids peer) as [ids1| |] eqn:Hr; [|done..].
  by injection Hc as <- <-.
Qed.

Lemma call_reclaim_inv ids peer gs ids' :
  call ids (CallReclaim peer) = Done (gs, ids') →
  ids' = Reclaim ids peer ∧ gs = [].
Proof. cbn [call]. intros Hc. by injection Hc as <- <-. Qed.

Lemma call_reachable ids c gs ids' :
  reachable ids → call ids c = Done (gs, ids') → reachable ids'.
Proof.
  intros Hreach Hc. destruct c as [peer|peer].
  - apply call_reserve_inv in Hc as [Hr _]. by eapply reachable_reserve.
  - apply call_reclaim_inv in Hc as [-> _]. by apply reachable_reclaim.
Qed.

Lemma call_sound ids c gs ids' :
  sound ids → call ids c = Done (gs, ids') → sound ids'.
Proof.
  intros Hs Hc. destruct c as [peer|peer].
  - apply call_reserve_inv in Hc as [Hr _]. eauto with registry.
  - apply call_reclaim_inv in Hc as [-> _]. eauto with registry.
Qed.

Lemma calls_reachable cs ids gs ids' :
  reachable ids → calls ids cs = Done (gs, ids') → reachable ids'.
Proof.
  revert ids gs. induction cs as [|c cs IH]; intros ids gs Hreach Hc.
  - cbn in Hc. by injection Hc as _ <-.
  - apply calls_cons_inv in Hc as (gs1 & ids1 & gs2 & Hc1 & Hc2 & _).
    eauto using call_reachable.
Qed.

(** Every reachable state is reached by a run of calls from the new
    registry. *)
Lemma reachable_calls ids :
  reachable ids → ∃ cs gs, calls newTxpoolIDs cs = Done (gs, ids).
Proof.
  induction 1 as [|ids peer ids' _ (cs & gs & Hcs) Hr|ids peer _ (cs & gs & Hcs)].
  - by exists [], [].
  - exists (cs ++ [CallReserve peer]). eexists.
    rewrite calls_app, Hcs. cbn. by rewrite Hr.
  - exists (cs ++ [CallReclaim peer]). eexists.
    rewrite calls_app, Hcs. by cbn.
Qed.

Lemma Reclaim_dom ids peer :
  dom (peerMap (Reclaim ids peer)) = dom (peerMap ids) ∖ {[ID peer]}.
Proof.
  unfold Reclaim. destruct (peerMap ids !! ID peer) as [i|] eqn:Hpeer; cbn.
  - by rewrite dom_delete_L.
  - apply not_elem_of_dom in Hpeer. set_solver.
Qed.

Lemma ReserveForPeer_dom ids peer ids' :
  sound ids → ReserveForPeer ids peer = Done ids' →
  dom (peerMap ids') = {[ID peer]} ∪ dom (peerMap ids).
Proof.
  intros Hs Hr. destruct (ReserveForPeer_inv _ _ _ Hs Hr) as (_ & curID & -> & _).
  cbn. by rewrite dom_insert_L.
Qed.

(** A disciplined run keeps the registry tight. *)
Lemma calls_tight cs ids gs ids' :
  sound ids → tight ids →
  onceEach (dom (peerMap ids)) cs = true →
  calls ids cs = Done (gs, ids') →
  tight ids'.
Proof.
  revert ids gs. induction cs as [|c cs IH]; intros ids gs Hs Ht Honce Hc.
  - cbn in Hc. by injection Hc as _ <-.
  - apply calls_cons_inv in Hc as (gs1 & ids1 & gs2 & Hc1 & Hc2 & _).
    pose proof (call_sound _ _ _ _ Hs Hc1) as Hs1.
    apply (IH ids1 gs2); [done| |  |done]; destruct c as [peer|peer]; cbn in Honce.
    + apply call_reserve_inv in Hc1 as [Hr _].
      apply andb_prop in Honce as [Hnew%bool_decide_eq_true _].
      apply not_elem_of_dom in Hnew. eauto with registry.
    + apply call_reclaim_inv in Hc1 as [-> _]. eauto with registry.
    + apply call_reserve_inv in Hc1 as [Hr _].
      apply andb_prop in Honce as [_ Honce].
      by erewrite ReserveForPeer_dom.
    + apply call_reclaim_inv in Hc1 as [-> _]. by rewrite Reclaim_dom.
Qed.

(** ** The registry after [n] reservations in a row *)

Lemma len_upto n : 0 <= n → len (list_to_set (seqZ 0 n)) = n.
Proof.
  intros Hn. unfold len. rewrite size_list_to_set by (apply NoDup_seqZ).
  rewrite length_seqZ. lia.
Qed.

Lemma upto_succ n :
  0 <= n →
  ({[n]} ∪ list_to_set (seqZ 0 n) : gset Z) = list_to_set (seqZ 0 (n + 1)).
Proof.
  intros Hn. apply set_eq. intros i.
  rewrite elem_of_union, elem_of_singleton, !elem_of_list_to_set, !elem_of_seqZ.
  lia.
Qed.

Lemma crowd_reserve n :
  Z.of_nat n < 65534 →
  sound (crowd n) →
  ReserveForPeer (crowd n) (peerNo n) = Done (crowd (S n)).
Proof.
  intros Hn Hs.
  destruct (ReserveForPeer_done (crowd n) (peerNo n) Hs)
    as (curID & -> & Hfree & _ & k & Hk & -> & Hbusy).
  { cbn. rewrite len_upto by lia. unfold maxActiveIDs. lia. }
  cbn in Hbusy, Hfree |- *.
  assert (k = 0) as ->.
  { destruct (decide (k = 0)) as [|Hk0]; [done|].
    specialize (Hbusy 0 ltac:(lia)).
    rewrite Z.add_0_r, uint16_id in Hbusy by (unfold is_uint16; lia).
    rewrite elem_of_list_to_set, elem_of_seqZ in Hbusy. lia. }
  rewrite Z.add_0_r, !uint16_id by (unfold is_uint16; lia).
  unfold crowd. f_equal. f_equal; [lia|].
  rewrite upto_succ by lia. do 2 f_equal. lia.
Qed.

Lemma crowd_reachable n : Z.of_nat n <= 65534 → reachable (crowd n).
Proof.
  induction n as [|n IH]; intros Hn.
  - replace (crowd 0) with newTxpoolIDs; [constructor|].
    unfold crowd, newTxpoolIDs. cbn. f_equal; set_solver.
  - eapply reachable_reserve; [apply IH; lia|].
    apply crowd_reserve; [lia|]. apply reachable_sound, IH. lia.
Qed.

Lemma crowdMap_later n k : (n <= k)%nat → crowdMap n !! ID (peerNo k) = None.
Proof.
  induction n as [|n IH]; intros Hk; cbn [crowdMap]; [apply lookup_empty|].
  rewrite lookup_insert_ne; [apply IH; lia|].
  cbn. intros Heq%(inj pretty). lia.
Qed.

Lemma crowdMap_size n : size (crowdMap n) = n.
Proof.
  induction n as [|n IH]; cbn [crowdMap]; [apply map_size_empty|].
  rewrite map_size_insert_None by (by apply crowdMap_later). by rewrite IH.
Qed.

Lemma crowded_peers : Z.of_nat (size (peerMap crowded)) = 65534.
Proof. unfold crowded. cbn [crowd peerMap]. rewrite crowdMap_size. lia. Qed.

Lemma crowded_reachable : reachable crowded.
Proof. apply crowd_reachable. lia. Qed.

Lemma crowded_len : len (activeIDs crowded) = 65535.
Proof. unfold crowded. cbn [crowd activeIDs]. rewrite len_upto; lia. Qed.

Lemma crowded_free : 65535 ∉ activeIDs crowded.
Proof.
  unfold crowded. cbn [crowd activeIDs].
  rewrite elem_of_list_to_set, elem_of_seqZ. lia.
Qed.

#[global] Opaque crowded.

(** The number of active identifiers other than the reserved 0. *)
Lemma len_nonzero ids :
  sound ids → len (activeIDs ids ∖ {[0]}) = len (activeIDs ids) - 1.
Proof. intros Hs. apply len_remove, Hs. Qed.

(** ** Batches of reservations and reclamations *)

Lemma call_reserve_grant ids peer gs ids' :
  sound ids →
  call ids (CallReserve peer) = Done (gs, ids') →
  ∃ curID, gs = [mkGrant peer curID (activeIDs ids)] ∧ firstFree ids curID ∧
           curID ≠ 0.
Proof.
  intros Hs [Hr ->]%call_reserve_inv.
  destruct (ReserveForPeer_inv _ _ _ Hs Hr) as (_ & curID & -> & Hfree).
  exists curID. unfold GetForPeer. cbn. rewrite lookup_insert_eq. cbn.
  split; [done|]. split; [done|]. intros ->.
  destruct Hfree as [Hfree _]. apply Hfree, Hs.
Qed.

Lemma firstFree_freshGrant ids peer curID :
  firstFree ids curID → curID ≠ 0 →
  freshGrant (mkGrant peer curID (activeIDs ids)).
Proof.
  intros (Hfree & H16 & _) Hnz. unfold freshGrant, is_uint16 in *. cbn.
  split; [lia|done].
Qed.

(** Every grant of a run from a sound state is in order. *)
Lemma calls_freshGrant cs ids gs ids' :
  sound ids → calls ids cs = Done (gs, ids') → Forall freshGrant gs.
Proof.
  revert ids gs. induction cs as [|c cs IH]; intros ids gs Hs Hc.
  - cbn in Hc. injection Hc as <- _. constructor.
  - apply calls_cons_inv in Hc as (gs1 & ids1 & gs2 & Hc1 & Hc2 & ->).
    apply Forall_app. split.
    + destruct c as [peer|peer].
      * destruct (call_reserve_grant _ _ _ _ Hs Hc1) as (curID & -> & Hfree & Hnz).
        apply Forall_singleton. by apply firstFree_freshGrant.
      * apply call_reclaim_inv in Hc1 as [_ ->]. constructor.
    + eauto using call_sound.
Qed.

Lemma reserve_batch ps ids :
  sound ids → tight ids →
  NoDup (ID <$> ps) →
  (∀ p, p ∈ ps → peerMap ids !! ID p = None) →
  len (activeIDs ids) + Z.of_nat (length ps) <= maxActiveIDs →
  ∃ gs ids',
    calls ids (CallReserve <$> ps) = Done (gs, ids') ∧
    sound ids' ∧ tight ids' ∧
    dom (peerMap ids') = list_to_set (ID <$> ps) ∪ dom (peerMap ids) ∧
    grantPeer <$> gs = ps.
Proof.
  revert ids. induction ps as [|p ps IH]; intros ids Hs Ht Hnd Hnew Hlen.
  - exists [], ids. cbn. split_and!; try done. set_solver.
  - cbn in Hnd, Hlen. apply NoDup_cons in Hnd as [Hp Hnd].
    destruct (ReserveForPeer_done ids p Hs) as (curID & Hr & Hfree);
      [lia|].
    pose proof (ReserveForPeer_sound _ _ _ Hs Hr) as Hs1.
    pose proof (ReserveForPeer_tight _ _ _ Hs Ht (Hnew p ltac:(left)) Hr) as Ht1.
    set (ids1 := mkIDs _ _ _) in *.
    destruct (IH ids1 Hs1 Ht1 Hnd) as (gs & ids' & Hcs & Hs' & Ht' & Hdom & Hgs).
    + intros q Hq. unfold ids1. cbn. rewrite lookup_insert_ne.
      * apply Hnew. by right.
      * intros Heq. apply Hp. rewrite Heq. by apply list_elem_of_fmap_2.
    + unfold ids1. cbn. rewrite len_insert_fresh by (apply Hfree). lia.
    + eexists _, ids'. cbn [fmap list_fmap calls call]. rewrite Hr.
      fold (list_fmap Peer Call CallReserve ps). fold ids1.
      change (list_fmap Peer Call CallReserve ps) with (CallReserve <$> ps).
      rewrite Hcs. split; [done|]. split; [done|]. split; [done|]. split.
      * rewrite Hdom. unfold ids1. cbn. rewrite dom_insert_L. set_solver.
      * cbn. by rewrite Hgs.
Qed.

Lemma reclaim_batch ps ids :
  sound ids → tight ids →
  ∃ ids',
    calls ids (CallReclaim <$> ps) = Done ([], ids') ∧
    sound ids' ∧ tight ids' ∧
    dom (peerMap ids') = dom (peerMap ids) ∖ list_to_set (ID <$> ps).
Proof.
  revert ids. induction ps as [|p ps IH]; intros ids Hs Ht.
  - exists ids. cbn. split_and!; try done. set_solver.
  - destruct (IH (Reclaim ids p)) as (ids' & Hcs & Hs' & Ht' & Hdom);
      [by apply Reclaim_sound|by apply Reclaim_tight|].
    exists ids'. cbn [fmap list_fmap calls call].
    change (list_fmap Peer Call CallReclaim ps) with (CallReclaim <$> ps).
    rewrite Hcs. split_and!; try done.
    rewrite Hdom, Reclaim_dom. set_solver.
Qed.

Lemma tight_nobody ids :
  tight ids → dom (peerMap ids) = ∅ → len (activeIDs ids) = 1.
Proof.
  intros Ht Hdom. apply dom_empty_inv_L in Hdom.
  unfold tight, mappedIDs in Ht. rewrite Ht, Hdom, map_img_empty_L.
  unfold len. rewrite union_empty_l_L, size_singleton. lia.
Qed.

(** The grants of a batch of reservations for distinct peers: pairwise
    different identifiers, none of them active before the batch, each of
    them what its peer looks up after the batch; the other peers' entries
    are as before. *)
Lemma reserve_batch_grants ps ids gs ids' :
  sound ids →
  NoDup (ID <$> ps) →
  calls ids (CallReserve <$> ps) = Done (gs, ids') →
  NoDup (grantID <$> gs) ∧
  Forall (λ g, grantID g ∉ activeIDs ids) gs ∧
  Forall (λ g, GetForPeer ids' (grantPeer g) = grantID g) gs ∧
  (∀ q, ID q ∉ ID <$> ps → peerMap ids' !! ID q = peerMap ids !! ID q).
Proof.
  revert ids gs. induction ps as [|p ps IH]; intros ids gs Hs Hnd Hc.
  - cbn in Hc. injection Hc as <- <-. split_and!; by try constructor.
  - cbn [fmap list_fmap] in Hnd, Hc. apply NoDup_cons in Hnd as [Hp Hnd].
    change (list_fmap Peer Call CallReserve ps) with (CallReserve <$> ps) in Hc.
    apply calls_cons_inv in Hc as (gs1 & ids1 & gs2 & Hc1 & Hc2 & ->).
    apply call_reserve_inv in Hc1 as [Hr ->].
    pose proof (ReserveForPeer_sound _ _ _ Hs Hr) as Hs1.
    destruct (ReserveForPeer_inv _ _ _ Hs Hr) as (_ & curID & -> & Hfree & _).
    destruct (IH _ _ Hs1 Hnd Hc2) as (Hnd2 & Hfresh2 & Hlook2 & Hframe2).
    assert (GetForPeer (mkIDs (<[ID p := curID]> (peerMap ids))
                              (uint16 (curID + 1)) ({[curID]} ∪ activeIDs ids)) p
            = curID) as ->.
    { unfold GetForPeer. cbn. by rewrite lookup_insert_eq. }
    cbn [peerMap activeIDs app fmap list_fmap grantID] in *.
    assert (peerMap ids' !! ID p = Some curID) as Hheld.
    { rewrite (Hframe2 p) by done. apply lookup_insert_eq. }
    split_and!.
    + apply NoDup_cons. split; [|done].
      intros (g & Hg & Hin)%list_elem_of_fmap.
      rewrite Forall_forall in Hfresh2. apply (Hfresh2 g Hin).
      rewrite <- Hg. set_solver.
    + constructor; [done|]. eapply Forall_impl; [exact Hfresh2|].
      cbn. intros g Hg. set_solver.
    + constructor; [|done]. unfold GetForPeer. cbn. by rewrite Hheld.
    + intros q Hq.
      assert (ID q ≠ ID p ∧ ID q ∉ ID <$> ps) as [Hqp Hqps].
      { split; intros Heq; apply Hq; [rewrite Heq; left|by right]. }
      rewrite (Hframe2 q) by done. by rewrite lookup_insert_ne.
Qed.

(** With every identifier active (a state no run reaches) [nextPeerID]
    does not panic: its loop never exits. *)
Lemma ReserveForPeer_spins ids peer :
  (∀ i, is_uint16 i → i ∈ activeIDs ids) →
  is_uint16 (nextID ids) →
  len (activeIDs ids) ≠ maxActiveIDs →
  ReserveForPeer ids peer = Spin.
Proof.
  intros Hfull Hnext Hlen. unfold ReserveForPeer, nextPeerID.
  rewrite decide_False by (done). by rewrite probe_spins.
Qed.

(** * The claims about the registry *)

(** C1, as amended: in every reachable state of the registry,
    [ReserveForPeer] panics if and only if exactly 65534 non-zero
    identifiers are active, that is when the active set, which holds the
    reserved 0 as well, has [maxActiveIDs] = 65535 members; with fewer
    non-zero identifiers active it returns; and no reachable state has
    more, so that the registry serves 65534 peers at a time. *)
Theorem ReserveForPeer_capacity ids peer :
  reachable ids →
  ((∃ msg, ReserveForPeer ids peer = Panic msg)
     ↔ len (activeIDs ids ∖ {[0]}) = 65534) ∧
  (len (activeIDs ids ∖ {[0]}) < 65534 →
     ∃ ids', ReserveForPeer ids peer = Done ids') ∧
  len (activeIDs ids ∖ {[0]}) <= 65534.
Proof.
  intros Hs%reachable_sound. rewrite len_nonzero by done.
  pose proof (sound_room _ Hs) as Hroom. unfold maxActiveIDs in Hroom.
  split_and!; [split| |lia].
  - intros [msg Hp].
    destruct (decide (len (activeIDs ids) = maxActiveIDs)) as [Hfull|Hless].
    + unfold maxActiveIDs in Hfull. lia.
    + destruct (ReserveForPeer_done ids peer Hs Hless) as (curID & Hd & _).
      congruence.
  - intros Hfull. exists panicMsg. apply ReserveForPeer_panic.
    unfold maxActiveIDs. lia.
  - intros Hless. destruct (ReserveForPeer_done ids peer Hs) as (curID & Hd & _).
    + unfold maxActiveIDs. lia.
    + eauto.
Qed.

(** C2, as amended: in every reachable state whose active set has fewer
    than [maxActiveIDs] members, [ReserveForPeer] allocates the first
    identifier that is not active, probing forward from the cursor
    [nextID] with 16-bit wrap-around; it records the peer's mapping to that
    identifier, marks it active and leaves the cursor right after it. *)
Theorem ReserveForPeer_first_free ids peer :
  reachable ids →
  len (activeIDs ids) < maxActiveIDs →
  ∃ curID,
    firstFree ids curID ∧
    ReserveForPeer ids peer
    = Done (mkIDs (<[ID peer := curID]> (peerMap ids))
                  (uint16 (curID + 1))
                  ({[curID]} ∪ activeIDs ids)).
Proof.
  intros Hs%reachable_sound Hlen.
  destruct (ReserveForPeer_done ids peer Hs) as (curID & Hd & Hfree); [lia|].
  eauto.
Qed.

(** C3, as amended: after every run of reserve and reclaim calls from the
    new registry, identifier 0 is active and every mapped identifier is
    active; when no peer is reserved again while it holds an identifier,
    the active set is exactly the image of the peer map together with 0. *)
Theorem registry_invariant cs gs ids :
  calls newTxpoolIDs cs = Done (gs, ids) →
  0 ∈ activeIDs ids ∧ mappedIDs ids ⊆ activeIDs ids ∧
  (onceEach ∅ cs = true → activeIDs ids = mappedIDs ids ∪ {[0]}).
Proof.
  intros Hcs.
  pose proof (reachable_sound _ (calls_reachable _ _ _ _ reachable_new Hcs)) as Hs.
  split_and!.
  - apply Hs.
  - intros i [p Hp]%elem_of_map_img. by apply (sound_mapped _ Hs p).
  - intros Honce.
    apply (calls_tight cs newTxpoolIDs gs); [apply sound_new|apply tight_new| |done].
    cbn. by rewrite dom_empty_L.
Qed.


(** C9: in every reachable state, reclaiming a peer that has no mapping
    leaves the registry (peer map, active set and cursor) as it is, and
    reclaiming any peer leaves every other peer's mapping as it is and
    that peer's identifier active. *)
Theorem Reclaim_frame ids peer :
  reachable ids →
  (peerMap ids !! ID peer = None → Reclaim ids peer = ids) ∧
  (∀ other, ID other ≠ ID peer →
     peerMap (Reclaim ids peer) !! ID other = peerMap ids !! ID other ∧
     GetForPeer (Reclaim ids peer) other = GetForPeer ids other ∧
     ∀ i, peerMap ids !! ID other = Some i →
          i ∈ activeIDs ids ∧ i ∈ activeIDs (Reclaim ids peer)).
Proof.
  intros Hs%reachable_sound. split.
  - intros Hnone. unfold Reclaim. by rewrite Hnone.
  - intros other Hne.
    assert (peerMap (Reclaim ids peer) !! ID other = peerMap ids !! ID other) as Hsame.
    { unfold Reclaim. destruct (peerMap ids !! ID peer) as [removedID|]; [|done].
      cbn. by rewrite lookup_delete_ne. }
    split_and!; [done|unfold GetForPeer; by rewrite Hsame|].
    intros i Hi. split; [by apply (sound_mapped _ Hs (ID other))|].
    apply (sound_mapped _ (Reclaim_sound _ peer Hs) (ID other)). by rewrite Hsame.
Qed.

(** * The claims about the reactor *)

Section ReactorFacts.

Context {TxVote : Type}.
Variable UnmarshalBinaryBare : list byte → @TxpoolMessage TxVote + error.
Variable MustMarshalBinaryBare : @TxpoolMessage TxVote → list byte.
Variable CheckTxWithInfo : TxVote → TxVoteInfo → option error.

(** The loop and the handler, run against this codec and this pool. *)
Local Abbreviation examine := (examine MustMarshalBinaryBare).
Local Abbreviation pass := (pass MustMarshalBinaryBare).
Local Abbreviation loop := (loop MustMarshalBinaryBare).
Local Abbreviation broadcastTxRoutine := (broadcastTxRoutine MustMarshalBinaryBare).
Local Abbreviation Receive := (Receive UnmarshalBinaryBare CheckTxWithInfo).
Local Abbreviation AddPeer := (AddPeer (TxVote:=TxVote)).

(** ** The decoder *)

(** C4: a frame of exactly [maxMsgSize] bytes that the codec reads as a
    [TxMessage] decodes to that message; a frame of [maxMsgSize + 1] bytes
    or more fails with the size error, which is made of the frame's length
    alone: whatever the content and whatever codec the decoder is run
    against, the result is the same. *)
Theorem decodeMsg_size_limit (bz : list byte) :
  (lenBytes bz = maxMsgSize →
   ∀ Tx, UnmarshalBinaryBare bz = inl (TxMessage Tx) →
         decodeMsg UnmarshalBinaryBare bz = inl (TxMessage Tx)) ∧
  (lenBytes bz >= maxMsgSize + 1 →
   decodeMsg UnmarshalBinaryBare bz = inr (ExceedsMaxSize (lenBytes bz) maxMsgSize) ∧
   ∀ otherCodec : list byte → @TxpoolMessage TxVote + error,
     decodeMsg otherCodec bz = decodeMsg UnmarshalBinaryBare bz).
Proof.
  unfold decodeMsg. split.
  - intros Hlen Tx Hcodec. rewrite decide_False by (lia). by rewrite Hcodec.
  - intros Hlen. rewrite decide_True by (lia). split; [done|].
    intros otherCodec. by rewrite decide_True by (lia).
Qed.

(** ** The inbound handler *)

(** C7: when decoding fails, [Receive] stops the sending peer with the
    decoding error as the reason and submits nothing to the pool; when
    decoding yields a [TxMessage], it submits the transaction to the pool
    once, with the sender's identifier from the registry as provenance,
    and whether or not the pool rejects it (a rejection is logged) the peer
    is not stopped; in both cases the reactor is left as it was. *)
Theorem Receive_handles (txR : TxpoolReactor) (chID : Z) (src : Peer)
    (msgBytes : list byte) :
  let result := Receive txR chID src msgBytes in
  (∀ err, decodeMsg UnmarshalBinaryBare msgBytes = inr err →
     result.1 = txR ∧
     result.2 = [ELogError "Error decoding message"; EStopPeerForError src err] ∧
     existsb isCheckTx result.2 = false) ∧
  (∀ Tx, decodeMsg UnmarshalBinaryBare msgBytes = inl (TxMessage Tx) →
     let info := mkInfo (GetForPeer (ids txR) src) in
     result.1 = txR ∧
     result.2 = ELogDebug "Receive" :: ECheckTxWithInfo Tx info ::
                match CheckTxWithInfo Tx info with
                | Some _ => [ELogInfo "Could not check tx"]
                | None => []
                end ∧
     existsb isStopPeer result.2 = false).
Proof.
  cbn zeta. unfold Reactor.Receive. split.
  - intros err ->. by cbn.
  - intros Tx ->. cbn. by destruct (CheckTxWithInfo _ _).
Qed.

(** ** The broadcast loop *)

Lemma pass_examines peer peerID next p e :
  examines next p e →
  ∃ pre, existsb isSend pre = false ∧
    pass peer peerID next p
    = (pre ++ (examine peer peerID p e).1,
       (examine peer peerID p e).2).
Proof.
  intros (Hr & Hp & [->|[-> Hfront]]); unfold Reactor.pass; rewrite Hr, Hp; cbn.
  - exists []. split; [done|]. by destruct (examine _ _ _ _).
  - rewrite Hfront. exists [ETxsFront]. split; [done|].
    by destruct (examine _ _ _ _).
Qed.

(** C5: in a pass that examines an entry of height [h + 2] while the peer
    reports height [h], the loop sends nothing, sleeps the catch-up
    interval and continues with the cursor on that entry; in a pass where
    the peer reports [h + 1] or more, the height guard lets the entry
    through: it is sent unless the peer is among its senders. *)
Theorem pass_height_guard peer peerID next p e h :
  examines next p e →
  is_int64 h → is_int64 (height (pool p e)) →
  height (pool p e) = h + 2 →
  let result := pass peer peerID next p in
  (peerHeight p = Some h →
     existsb isSend result.1 = false ∧
     last result.1 = Some catchupSleep ∧
     result.2 = Continue (Some e)) ∧
  (∀ h', is_int64 h' → h + 1 <= h' → peerHeight p = Some h' →
     peerID ∉ senders (pool p e) →
     ESend peer TxpoolChannel (MustMarshalBinaryBare (TxMessage (tx (pool p e))))
       ∈ result.1).
Proof.
  intros Hex Hh HH Hheight. cbn zeta.
  destruct (pass_examines peer peerID next p e Hex) as (pre & Hpre & ->).
  assert (int64 (height (pool p e) - 1) = h + 1) as Hguard.
  { rewrite int64_id; unfold is_int64 in *; lia. }
  unfold Reactor.examine. rewrite Hguard. split.
  - intros ->. rewrite decide_True by (lia). cbn.
    rewrite existsb_app, Hpre, last_snoc. done.
  - intros h' Hh' Hle -> Hsender. rewrite decide_False by (lia).
    rewrite decide_False by (done). cbn.
    apply elem_of_app. right. destruct (sendOK p); cbn; left.
Qed.

(** As long as the peer has no state yet or reports less than the
    entry's height minus one, the loop sends nothing, however many passes
    it makes. *)
Lemma loop_waits_for_height peer peerID e (ps : list (@Pass TxVote)) :
  Forall (λ p, is_int64 (height (pool p e) - 1) ∧
               match peerHeight p with
               | Some h => h < height (pool p e) - 1
               | None => True
               end) ps →
  existsb isSend (loop peer peerID (Some e) ps).1 = false.
Proof.
  induction 1 as [|p ps (HH1 & Hlag) _ IH]; [done|].
  cbn [Reactor.loop]. unfold Reactor.pass.
  destruct (negb (reactorRunning p) || negb (peerRunning p)); [done|].
  unfold Reactor.examine. destruct (peerHeight p) as [h|].
  - rewrite int64_id by (exact HH1). rewrite decide_True by (done).
    destruct (Reactor.loop _ _ _ _ ps) as [effects routine]. exact IH.
  - destruct (Reactor.loop _ _ _ _ ps) as [effects routine]. exact IH.
Qed.

(** C6, as amended: a pass that examines an entry whose sender set holds
    the peer's identifier sends nothing, whatever else it observes. When
    the peer has a state and is at most one block behind the entry, the
    pass goes on to the final [select] without sending, and the cursor
    moves to the entry's successor when that is signalled, exactly as
    after a successful send. When the peer has no state yet or is more
    than one block behind, the pass ends with the catch-up sleep and the
    cursor stays on the entry. *)
Theorem pass_echo_suppression peer peerID next p e :
  examines next p e →
  peerID ∈ senders (pool p e) →
  let result := pass peer peerID next p in
  existsb isSend result.1 = false ∧
  (∀ h, peerHeight p = Some h → ¬ h < int64 (height (pool p e) - 1) →
     result.2 = advance p ∧
     ∀ successor, nextWake p = Ready successor → result.2 = Continue successor) ∧
  (peerHeight p = None ∨
   (∃ h, peerHeight p = Some h ∧ h < int64 (height (pool p e) - 1)) →
     last result.1 = Some catchupSleep ∧ result.2 = Continue (Some e)).
Proof.
  intros Hex Hsender. cbn zeta.
  destruct (pass_examines peer peerID next p e Hex) as (pre & Hpre & ->).
  unfold Reactor.examine. split_and!.
  - destruct (peerHeight p) as [h|]; [|by cbn; rewrite existsb_app, Hpre].
    destruct (decide (h < _)); [by cbn; rewrite existsb_app, Hpre|].
    rewrite decide_True by (done). cbn. by rewrite app_nil_r.
  - intros h -> Hguard. rewrite decide_False by (done).
    rewrite decide_True by (done). cbn. split; [done|].
    intros successor Hnext. unfold advance. by rewrite Hnext.
  - intros [-> | (h & -> & Hlag)].
    + cbn. by rewrite last_snoc.
    + rewrite decide_True by (done). cbn. by rewrite last_snoc.
Qed.

(** A peer that is among the senders of every entry it is shown is never
    sent anything, however many passes the loop makes. *)
Lemma loop_suppresses_echo peer peerID next (ps : list (@Pass TxVote)) :
  Forall (λ p, ∀ e, peerID ∈ senders (pool p e)) ps →
  existsb isSend (loop peer peerID next ps).1 = false.
Proof.
  intros Hps. revert next. induction Hps as [|p ps Hp _ IH]; intros next; [done|].
  cbn [Reactor.loop].
  assert (∀ e, ∃ flow, Reactor.examine MustMarshalBinaryBare peer peerID p e
                       = ([], flow) ∨
                       Reactor.examine MustMarshalBinaryBare peer peerID p e
                       = ([catchupSleep], flow)) as Hexamine.
  { intros e. unfold Reactor.examine. destruct (peerHeight p) as [h|]; [|eauto].
    destruct (decide (h < _)); [eauto|]. rewrite decide_True by (apply Hp). eauto. }
  assert (∀ effects flow,
            existsb isSend effects = false →
            existsb isSend
              (match flow with
               | Continue next' =>
                   let '(effects', routine) := loop peer peerID next' ps in
                   (effects ++ effects', routine)
               | Return => (effects, Returned)
               end).1 = false) as Hrest.
  { intros effects [next'|] Heffects; [|done].
    specialize (IH next'). destruct (Reactor.loop _ _ _ _ ps) as [effects' routine].
    cbn in *. by rewrite existsb_app, Heffects, IH. }
  unfold Reactor.pass.
  destruct (negb (reactorRunning p) || negb (peerRunning p)); [done|].
  destruct next as [e|].
  - destruct (Hexamine e) as [flow [-> | ->]].
    + by apply (Hrest [] flow).
    + by apply (Hrest [catchupSleep] flow).
  - destruct (frontWake p) as [[e|]| |]; [| |done|done].
    + destruct (Hexamine e) as [flow [-> | ->]].
      * by apply (Hrest [ETxsFront] flow).
      * by apply (Hrest [ETxsFront; catchupSleep] flow).
    + by apply (Hrest [ETxsFront] (Continue None)).
Qed.

(** C10: with [Broadcast] off in the configuration, the broadcast routine
    of every peer has returned before its first pass, whatever its passes
    would observe: it does not read the pool's entries and sends nothing. [AddPeer] reserves
    an identifier for the peer all the same, and [Receive] does what it
    does with [Broadcast] on. *)
Theorem broadcast_disabled (txR : TxpoolReactor) :
  Broadcast (config txR) = false →
  (∀ peer (ps : list (@Pass TxVote)),
     broadcastTxRoutine txR peer ps = ([], Returned) ∧
     existsb isTxsFront (broadcastTxRoutine txR peer ps).1 = false ∧
     existsb isSend (broadcastTxRoutine txR peer ps).1 = false) ∧
  (∀ peer ids',
     ReserveForPeer (ids txR) peer = Done ids' →
     AddPeer txR peer
     = Done (mkReactor (config txR) ids', [EGoBroadcast peer])) ∧
  (∀ chID src msgBytes,
     (Receive txR chID src msgBytes).2
     = (Receive (mkReactor (mkConfig true) (ids txR)) chID src msgBytes).2).
Proof.
  intros Hoff. split_and!.
  - intros peer ps. unfold Reactor.broadcastTxRoutine. by rewrite Hoff.
  - intros peer ids' Hr. unfold Reactor.AddPeer. by rewrite Hr.
  - intros chID src msgBytes. unfold Reactor.Receive.
    by destruct (decodeMsg _ _) as [[Tx|]|err].
Qed.

End ReactorFacts.

(** * The claims at concrete inputs *)

Lemma churned_run :
  calls newTxpoolIDs
    [CallReserve (mkPeer "a"); CallReserve (mkPeer "b"); CallReserve (mkPeer "c");
     CallReclaim (mkPeer "a")]
  = Done ([mkGrant (mkPeer "a") 1 {[0]}; mkGrant (mkPeer "b") 2 {[0; 1]};
           mkGrant (mkPeer "c") 3 {[0; 1; 2]}], churned).
Proof. vm_compute. reflexivity. Qed.

Lemma churned_reachable : reachable churned.
Proof. exact (calls_reachable _ _ _ _ reachable_new churned_run). Qed.

(** The empty registry has room, and a reservation on it returns. *)
Lemma ReserveForPeer_capacity_witness :
  len (activeIDs newTxpoolIDs ∖ {[0]}) <= 65534 ∧
  ∃ ids', ReserveForPeer newTxpoolIDs (mkPeer "a") = Done ids'.
Proof.
  destruct (ReserveForPeer_capacity newTxpoolIDs (mkPeer "a") reachable_new)
    as (_ & Hdone & Hroom).
  split; [exact Hroom|]. apply Hdone. vm_compute. reflexivity.
Defined.

(** C1 fails on the code: with 65534 peers connected the identifier 65535
    is free, and fewer than 65535 non-zero identifiers are active, yet the
    next reservation panics. *)
Lemma crowded_reserve_panics :
  reachable crowded ∧
  Z.of_nat (size (peerMap crowded)) = 65534 ∧
  len (activeIDs crowded ∖ {[0]}) = 65534 ∧
  is_uint16 65535 ∧ (65535 ∉ activeIDs crowded) ∧
  ReserveForPeer crowded (peerNo (Z.to_nat 65534)) = Panic panicMsg.
Proof.
  pose proof crowded_reachable as Hreach. split_and!.
  - done.
  - apply crowded_peers.
  - rewrite len_nonzero by (by apply reachable_sound). rewrite crowded_len. lia.
  - unfold is_uint16. lia.
  - apply crowded_free.
  - apply ReserveForPeer_panic, crowded_len.
Qed.

Lemma ReserveForPeer_first_free_witness :
  ∃ curID,
    firstFree churned curID ∧
    ReserveForPeer churned (mkPeer "d")
    = Done (mkIDs (<["d" := curID]> (peerMap churned))
                  (uint16 (curID + 1))
                  ({[curID]} ∪ activeIDs churned)).
Proof.
  apply (ReserveForPeer_first_free churned (mkPeer "d") churned_reachable).
  vm_compute. reflexivity.
Defined.

(** C2 fails on the code: after "a", "b", "c" were reserved and "a" was
    reclaimed, identifier 1 is free, and the next reservation hands out 4;
    and with 65534 peers connected, one non-zero identifier is free and
    the reservation panics. *)
Lemma reserve_skips_smaller_free_id :
  reachable churned ∧
  (1 ∉ activeIDs churned) ∧
  ReserveForPeer churned (mkPeer "d")
  = Done (mkIDs {["b" := 2; "c" := 3; "d" := 4]} 5 {[0; 2; 3; 4]}) ∧
  reachable crowded ∧ (65535 ∉ activeIDs crowded) ∧
  ReserveForPeer crowded (peerNo (Z.to_nat 65534)) = Panic panicMsg.
Proof.
  split_and!.
  - apply churned_reachable.
  - vm_compute. intros H. discriminate H.
  - vm_compute. reflexivity.
  - apply crowded_reachable.
  - apply crowded_free.
  - apply ReserveForPeer_panic, crowded_len.
Qed.

Lemma registry_invariant_witness :
  0 ∈ activeIDs churned ∧ mappedIDs churned ⊆ activeIDs churned ∧
  activeIDs churned = mappedIDs churned ∪ {[0]}.
Proof.
  destruct (registry_invariant _ _ _ churned_run) as (Hzero & Hsub & Htight).
  split_and!; [exact Hzero|exact Hsub|]. apply Htight. vm_compute. reflexivity.
Defined.

(** C3 fails on the code: after peer "a" was reserved twice in a row,
    identifier 1 is active and is neither 0 nor in the image of the map. *)
Lemma double_reserve_leaks :
  calls newTxpoolIDs [CallReserve (mkPeer "a"); CallReserve (mkPeer "a")]
  = Done ([mkGrant (mkPeer "a") 1 {[0]}; mkGrant (mkPeer "a") 2 {[0; 1]}], leaky) ∧
  1 ∈ activeIDs leaky ∧ (1 ∉ mappedIDs leaky ∪ {[0]}) ∧
  activeIDs leaky ≠ mappedIDs leaky ∪ {[0]}.
Proof.
  assert (1 ∈ activeIDs leaky) as Hin by (unfold leaky; cbn; set_solver).
  assert (1 ∉ mappedIDs leaky ∪ {[0]}) as Hout.
  { unfold leaky, mappedIDs. cbn. rewrite map_img_singleton_L. set_solver. }
  split_and!; [vm_compute; reflexivity|done|done|].
  intros Heq. apply Hout. by rewrite <- Heq.
Qed.


Lemma Reclaim_frame_witness :
  Reclaim churned (mkPeer "a") = churned ∧
  peerMap (Reclaim churned (mkPeer "b")) !! "c" = peerMap churned !! "c" ∧
  3 ∈ activeIDs (Reclaim churned (mkPeer "b")).
Proof.
  destruct (Reclaim_frame churned (mkPeer "a") churned_reachable) as [Hnoop _].
  destruct (Reclaim_frame churned (mkPeer "b") churned_reachable) as [_ Hother].
  destruct (Hother (mkPeer "c")) as (Hmap & _ & Hactive); [done|].
  split_and!.
  - apply Hnoop. vm_compute. reflexivity.
  - exact Hmap.
  - apply (Hactive 3). vm_compute. reflexivity.
Defined.

Lemma bigFrame_len : lenBytes bigFrame = maxMsgSize.
Proof.
  unfold lenBytes, bigFrame, maxMsgSize. rewrite repeat_length. lia.
Qed.

Lemma bigFrame_decodes : demoUnmarshal bigFrame = inl (TxMessage bigFrame).
Proof.
  unfold bigFrame.
  replace (Z.to_nat 1048576) with (S (Z.to_nat 1048575)) by lia.
  reflexivity.
Qed.

#[global] Opaque bigFrame.

Lemma bigFrame_cons_len : lenBytes (x00 :: bigFrame) = maxMsgSize + 1.
Proof.
  unfold lenBytes. change (length (x00 :: bigFrame)) with (S (length bigFrame)).
  rewrite Nat2Z.inj_succ. fold (lenBytes bigFrame). rewrite bigFrame_len. lia.
Qed.

Lemma decodeMsg_size_limit_witness :
  decodeMsg demoUnmarshal bigFrame = inl (TxMessage bigFrame) ∧
  decodeMsg demoUnmarshal (x00 :: bigFrame)
  = inr (ExceedsMaxSize (lenBytes (x00 :: bigFrame)) maxMsgSize).
Proof.
  destruct (decodeMsg_size_limit demoUnmarshal bigFrame) as [Hfits _].
  destruct (decodeMsg_size_limit demoUnmarshal (x00 :: bigFrame)) as [_ Hover].
  split.
  - apply Hfits; [apply bigFrame_len|apply bigFrame_decodes].
  - apply Hover. rewrite bigFrame_cons_len. lia.
Defined.

Lemma pass_height_guard_witness :
  (existsb isSend (pass demoMarshal (mkPeer "b") 2 (Some 0%nat) (demoPass (Some 5))).1
   = false ∧
   (pass demoMarshal (mkPeer "b") 2 (Some 0%nat) (demoPass (Some 5))).2
   = Continue (Some 0%nat)) ∧
  ESend (mkPeer "b") TxpoolChannel [x01]
    ∈ (pass demoMarshal (mkPeer "b") 2 (Some 0%nat) (demoPass (Some 6))).1.
Proof.
  assert (∀ h, examines (Some 0%nat) (demoPass h) 0%nat) as Hex.
  { intros h. split_and!; [done|done|by left]. }
  split.
  - destruct (pass_height_guard demoMarshal (mkPeer "b") 2
                (Some 0%nat) (demoPass (Some 5)) 0%nat 5 (Hex _))
      as [Hwait _]; [unfold is_int64; lia|unfold is_int64; cbn; lia|done|].
    destruct (Hwait eq_refl) as (Hquiet & _ & Hstay). by split.
  - destruct (pass_height_guard demoMarshal (mkPeer "b") 2
                (Some 0%nat) (demoPass (Some 6)) 0%nat 5 (Hex _))
      as [_ Hsend]; [unfold is_int64; lia|unfold is_int64; cbn; lia|done|].
    apply (Hsend 6); [unfold is_int64; lia|lia|done|].
    cbn. set_solver.
Defined.

Lemma pass_echo_suppression_witness :
  existsb isSend (pass demoMarshal (mkPeer "a") 1 (Some 0%nat) (demoPass (Some 7))).1
  = false ∧
  (pass demoMarshal (mkPeer "a") 1 (Some 0%nat) (demoPass (Some 7))).2
  = Continue None.
Proof.
  destruct (pass_echo_suppression demoMarshal (mkPeer "a") 1
              (Some 0%nat) (demoPass (Some 7)) 0%nat)
    as (Hquiet & Hmove & _).
  - split_and!; [done|done|by left].
  - cbn. set_solver.
  - split; [exact Hquiet|].
    destruct (Hmove 7) as [_ Hnext]; [done| |by apply Hnext].
    vm_compute. intros H. discriminate H.
Defined.

(** C6 fails on the code: peer "a" holds identifier 1, which is in the
    sender set of entry 0 (height 7), and the successor of entry 0 is
    signalled; yet with the peer two blocks behind, or without a state,
    the pass sleeps and leaves the cursor on entry 0. With the peer at
    the entry's height the cursor moves to entry 1. *)
Lemma echo_suppressed_pass_stays :
  examines (Some 0%nat) (movingPass (Some 5)) 0%nat ∧
  1 ∈ senders (pool (movingPass (Some 5)) 0%nat) ∧
  nextWake (movingPass (Some 5)) = Ready (Some 1%nat) ∧
  pass demoMarshal (mkPeer "a") 1 (Some 0%nat) (movingPass (Some 5))
  = ([ESleep 100], Continue (Some 0%nat)) ∧
  pass demoMarshal (mkPeer "a") 1 (Some 0%nat) (movingPass None)
  = ([ESleep 100], Continue (Some 0%nat)) ∧
  pass demoMarshal (mkPeer "a") 1 (Some 0%nat) (movingPass (Some 7))
  = ([], Continue (Some 1%nat)).
Proof.
  split_and!.
  - split_and!; [done|done|by left].
  - cbn. set_solver.
  - reflexivity.
  - vm_compute. reflexivity.
  - vm_compute. reflexivity.
  - vm_compute. reflexivity.
Qed.

Lemma Receive_handles_witness :
  (Receive demoUnmarshal demoCheckTx quietReactor TxpoolChannel (mkPeer "b") []).2
  = [ELogError "Error decoding message"; EStopPeerForError (mkPeer "b") (Codec "EOF")] ∧
  (Receive demoUnmarshal demoCheckTx quietReactor TxpoolChannel (mkPeer "b") [x00]).2
  = [ELogDebug "Receive"; ECheckTxWithInfo [x00] (mkInfo 2);
     ELogInfo "Could not check tx"].
Proof.
  destruct (Receive_handles demoUnmarshal demoCheckTx quietReactor TxpoolChannel
              (mkPeer "b") []) as [Hfail _].
  destruct (Receive_handles demoUnmarshal demoCheckTx quietReactor TxpoolChannel
              (mkPeer "b") [x00]) as [_ Hok].
  split.
  - destruct (Hfail (Codec "EOF")) as (_ & -> & _); reflexivity.
  - destruct (Hok [x00]) as (_ & -> & _); reflexivity.
Defined.

Lemma broadcast_disabled_witness :
  broadcastTxRoutine demoMarshal quietReactor (mkPeer "b")
    [demoPass (Some 7)] = ([], Returned) ∧
  AddPeer (TxVote:=list byte) quietReactor (mkPeer "d")
  = Done (mkReactor (mkConfig false)
            (mkIDs {["b" := 2; "c" := 3; "d" := 4]} 5 {[0; 2; 3; 4]}),
          [EGoBroadcast (mkPeer "d")]).
Proof.
  destruct (broadcast_disabled
              demoUnmarshal demoMarshal demoCheckTx quietReactor eq_refl)
    as (Hquiet & Hadd & _).
  split.
  - apply Hquiet.
  - apply Hadd. vm_compute. reflexivity.
Defined.

(** With [Broadcast] on, the same pass reads the pool and sends the entry
    to peer "b": the silence above is the switch's doing. *)
Lemma broadcast_enabled_sends :
  broadcastTxRoutine demoMarshal
    (mkReactor (mkConfig true) churned) (mkPeer "b") [demoPass (Some 7)]
  = ([ETxsFront; ESend (mkPeer "b") TxpoolChannel [x01]], Looping None).
Proof. vm_compute. reflexivity. Qed.

(** * Further properties of the registry *)

(** ** Lookup after a reservation *)

(** After a reservation the peer's lookup gives an identifier of
    1..65535 that was free before and is active now; the lookups of all
    other peers and the identifiers already active are as before. *)
Theorem reserve_then_lookup ids peer ids' :
  reachable ids →
  ReserveForPeer ids peer = Done ids' →
  1 <= GetForPeer ids' peer <= 65535 ∧
  (GetForPeer ids' peer ∉ activeIDs ids) ∧
  GetForPeer ids' peer ∈ activeIDs ids' ∧
  (∀ other, ID other ≠ ID peer → GetForPeer ids' other = GetForPeer ids other) ∧
  (∀ i, i ∈ activeIDs ids → i ∈ activeIDs ids').
Proof.
  intros Hs%reachable_sound Hr.
  destruct (ReserveForPeer_inv _ _ _ Hs Hr) as (_ & curID & -> & Hfree & H16 & _).
  unfold GetForPeer. cbn. rewrite lookup_insert_eq. cbn.
  assert (curID ≠ 0) as Hnz.
  { intros ->. apply Hfree, Hs. }
  unfold is_uint16 in H16. split_and!; [lia|lia|done|set_solver| |set_solver].
  intros other Hne. by rewrite lookup_insert_ne.
Qed.

(** In a reachable registry the lookup gives [UnknownPeerID] exactly for
    the peers that hold no identifier. *)
Theorem lookup_unknown_iff ids peer :
  reachable ids →
  GetForPeer ids peer = UnknownPeerID ↔ peerMap ids !! ID peer = None.
Proof.
  intros Hs%reachable_sound. unfold GetForPeer, UnknownPeerID.
  destruct (peerMap ids !! ID peer) as [i|] eqn:Hpeer; cbn; [|done].
  pose proof (sound_mapped _ Hs _ _ Hpeer) as [_ Hnz]. split; [done|]. done.
Qed.

(** Two different peers never hold the same identifier: the lookup of a
    peer that holds one differs from the lookup of every other peer. *)
Theorem distinct_peers_distinct_ids ids p q :
  reachable ids →
  is_Some (peerMap ids !! ID p) →
  ID p ≠ ID q →
  GetForPeer ids p ≠ GetForPeer ids q.
Proof.
  intros Hs%reachable_sound [i Hp] Hne. unfold GetForPeer. rewrite Hp. cbn.
  pose proof (sound_mapped _ Hs _ _ Hp) as [_ Hnz].
  destruct (peerMap ids !! ID q) as [j|] eqn:Hq; cbn; [|done].
  intros ->. apply Hne, (sound_inj _ Hs _ _ _ Hp Hq).
Qed.

(** ** Reclaiming *)

(** Reclaiming twice is reclaiming once; after it the peer's lookup gives
    0 and the identifier the peer held is not active any more. *)
Theorem Reclaim_idempotent ids peer :
  Reclaim (Reclaim ids peer) peer = Reclaim ids peer ∧
  GetForPeer (Reclaim ids peer) peer = 0 ∧
  peerMap (Reclaim ids peer) !! ID peer = None ∧
  (∀ i, peerMap ids !! ID peer = Some i → i ∉ activeIDs (Reclaim ids peer)).
Proof.
  assert (peerMap (Reclaim ids peer) !! ID peer = None) as Hgone.
  { unfold Reclaim. destruct (peerMap ids !! ID peer) eqn:Hpeer; [|done].
    cbn. apply lookup_delete_eq. }
  split_and!.
  - unfold Reclaim at 1. by rewrite Hgone.
  - unfold GetForPeer. by rewrite Hgone.
  - done.
  - intros i Hi. unfold Reclaim. rewrite Hi. cbn. set_solver.
Qed.

(** A peer that connects and disconnects leaves the map and the active
    set of the registry as they were; only the cursor has moved, right
    after the identifier the peer held. *)
Theorem AddPeer_RemovePeer_roundtrip {TxVote : Type} (txR txR' : TxpoolReactor)
    (peer : Peer) (effects : list (@Effect TxVote)) :
  reachable (ids txR) →
  peerMap (ids txR) !! ID peer = None →
  AddPeer txR peer = Done (txR', effects) →
  effects = [EGoBroadcast peer] ∧
  config (RemovePeer txR' peer) = config txR ∧
  peerMap (ids (RemovePeer txR' peer)) = peerMap (ids txR) ∧
  activeIDs (ids (RemovePeer txR' peer)) = activeIDs (ids txR) ∧
  nextID (ids (RemovePeer txR' peer)) = uint16 (GetForPeer (ids txR') peer + 1).
Proof.
  intros Hs%reachable_sound Hnew Hadd. unfold AddPeer in Hadd.
  destruct (ReserveForPeer (ids txR) peer) as [ids'| |] eqn:Hr; [|done..].
  injection Hadd as <- <-.
  destruct (ReserveForPeer_inv _ _ _ Hs Hr) as (_ & curID & -> & Hfree & _).
  unfold RemovePeer, Reclaim, GetForPeer. cbn. rewrite lookup_insert_eq. cbn.
  split_and!; [done|done| | |done].
  - rewrite delete_insert_eq. by apply delete_id.
  - set_solver.
Qed.

(** ** The cursor *)

(** Until the cursor wraps, that is for the first 65535 reservations of a
    run from the new registry, identifiers are handed out in sequence: the
    k-th reservation gets k, whatever was reclaimed in between. *)
Lemma grants_from_cursor cs ids gs ids' :
  sound ids →
  (∀ i, i ∈ activeIDs ids → i < nextID ids) →
  calls ids cs = Done (gs, ids') →
  nextID ids + Z.of_nat (length gs) <= 65536 →
  grantID <$> gs = seqZ (nextID ids) (Z.of_nat (length gs)).
Proof.
  revert ids gs. induction cs as [|c cs IH]; intros ids gs Hs Hbelow Hc Hlen.
  - cbn in Hc. by injection Hc as <- _.
  - apply calls_cons_inv in Hc as (gs1 & ids1 & gs2 & Hc1 & Hc2 & ->).
    pose proof (call_sound _ _ _ _ Hs Hc1) as Hs1.
    destruct c as [peer|peer].
    + apply call_reserve_inv in Hc1 as [Hr ->].
      destruct (ReserveForPeer_inv _ _ _ Hs Hr)
        as (_ & curID & -> & Hfree & _ & k & Hk & -> & Hbusy).
      pose proof (sound_next _ Hs) as Hnext.
      assert (k = 0) as ->.
      { destruct (decide (k = 0)) as [|Hk0]; [done|].
        specialize (Hbusy 0 ltac:(lia)).
        rewrite Z.add_0_r, uint16_id in Hbusy by done.
        apply Hbelow in Hbusy. lia. }
      rewrite Z.add_0_r, uint16_id in * by done.
      unfold GetForPeer. cbn [peerMap]. rewrite lookup_insert_eq.
      cbn [app length fmap list_fmap grantID default] in *.
      rewrite seqZ_cons by lia. f_equal.
      destruct gs2 as [|g gs2]; [by rewrite seqZ_nil by (cbn; lia)|].
      cbn [length] in Hlen. unfold is_uint16 in Hnext.
      rewrite (uint16_id (nextID ids + 1)) in Hc2, Hs1 by (unfold is_uint16; lia).
      specialize (IH _ (g :: gs2) Hs1). cbn [nextID activeIDs] in IH.
      replace (Z.pred (Z.of_nat (S (length (g :: gs2)))))
        with (Z.of_nat (length (g :: gs2))) by lia.
      change (Z.succ (nextID ids)) with (nextID ids + 1).
      apply IH; [|done|cbn [length]; lia].
      intros i [->%elem_of_singleton|Hi%Hbelow]%elem_of_union; lia.
    + apply call_reclaim_inv in Hc1 as [-> ->]. cbn [app].
      assert (nextID (Reclaim ids peer) = nextID ids) as Hcursor.
      { unfold Reclaim. by destruct (peerMap ids !! ID peer). }
      rewrite <- Hcursor. apply IH; [done| |done|by rewrite Hcursor].
      intros i Hi. rewrite Hcursor. apply Hbelow.
      unfold Reclaim in Hi. destruct (peerMap ids !! ID peer); [|done].
      cbn in Hi. set_solver.
Qed.

Theorem grants_sequential cs gs ids :
  calls newTxpoolIDs cs = Done (gs, ids) →
  Z.of_nat (length gs) <= 65535 →
  grantID <$> gs = seqZ 1 (Z.of_nat (length gs)).
Proof.
  intros Hcs Hlen.
  apply (grants_from_cursor cs newTxpoolIDs gs ids sound_new); [|done|cbn; lia].
  cbn. intros i ->%elem_of_singleton. lia.
Qed.

(** ** The cost of a reservation *)

(** A run of [k] busy identifiers from the cursor counts [k] different
    active identifiers. *)
Lemma busy_run_bound (active : gset Z) next k :
  0 <= k <= 65536 →
  (∀ j, 0 <= j < k → uint16 (next + j) ∈ active) →
  k <= len active.
Proof.
  intros Hk Hbusy.
  set (run := (λ j, uint16 (next + j)) <$> seqZ 0 k).
  assert (NoDup run) as Hnd.
  { apply NoDup_fmap_2_strong; [|apply NoDup_seqZ].
    intros i j Hi%elem_of_seqZ Hj%elem_of_seqZ. unfold uint16.
    intros Heq. Z.div_mod_to_equations. lia. }
  assert (list_to_set run ⊆ active) as Hsub.
  { intros i [j [-> Hj%elem_of_seqZ]]%elem_of_list_to_set%list_elem_of_fmap.
    apply Hbusy. lia. }
  apply subseteq_size in Hsub. rewrite size_list_to_set in Hsub by done.
  unfold run in Hsub. rewrite length_fmap, length_seqZ in Hsub.
  unfold len. lia.
Qed.

(** In a reachable registry the loop of [nextPeerID] always exits, and
    it has then skipped at most as many identifiers as are active. *)
Theorem nextPeerID_probes_bounded ids :
  reachable ids →
  nextPeerID ids ≠ Spin ∧
  ∀ curID ids',
    nextPeerID ids = Done (curID, ids') →
    ∃ k, 0 <= k <= len (activeIDs ids) ∧
         curID = uint16 (nextID ids + k) ∧
         (∀ j, 0 <= j < k → uint16 (nextID ids + j) ∈ activeIDs ids) ∧
         ids' = mkIDs (peerMap ids) (uint16 (curID + 1)) (activeIDs ids).
Proof.
  intros Hs%reachable_sound.
  destruct (decide (len (activeIDs ids) = maxActiveIDs)) as [Hfull|Hroom].
  { rewrite nextPeerID_panic by done. split; [done|]. intros ? ? [=]. }
  destruct (nextPeerID_done ids Hs Hroom) as (curID & -> & _ & _ & k & Hk & -> & Hbusy).
  split; [done|]. intros ? ? [= <- <-]. exists k. split_and!; try done; [lia|].
  apply (busy_run_bound _ (nextID ids)); [lia|done].
Qed.

(** ** Counting peers *)

Lemma size_map_img_inj (m : gmap string Z) :
  (∀ p q i, m !! p = Some i → m !! q = Some i → p = q) →
  size (map_img m : gset Z) = size m.
Proof.
  induction m as [|p i m Hp IH] using map_ind; intros Hinj.
  - by rewrite map_img_empty_L, size_empty, map_size_empty.
  - rewrite map_img_insert_notin_L, map_size_insert_None by done.
    rewrite size_union, size_singleton, IH; [done| |].
    + intros q1 q2 j Hq1 Hq2. apply (Hinj q1 q2 j).
      * rewrite lookup_insert_ne; [done|]. intros <-. congruence.
      * rewrite lookup_insert_ne; [done|]. intros <-. congruence.
    + intros j ->%elem_of_singleton [q Hq]%elem_of_map_img.
      assert (p = q) as <-; [|congruence].
      apply (Hinj p q i); [apply lookup_insert_eq|].
      rewrite lookup_insert_ne; [done|]. intros <-. congruence.
Qed.

(** After a run in which no peer is reserved again while it holds an
    identifier, the active identifiers are one more than the connected
    peers, and at most 65534 peers are connected. *)
Theorem active_count cs gs ids :
  calls newTxpoolIDs cs = Done (gs, ids) →
  onceEach ∅ cs = true →
  len (activeIDs ids) = Z.of_nat (size (peerMap ids)) + 1 ∧
  Z.of_nat (size (peerMap ids)) <= 65534.
Proof.
  intros Hcs Honce.
  pose proof (reachable_sound _ (calls_reachable _ _ _ _ reachable_new Hcs)) as Hs.
  assert (tight ids) as Ht.
  { apply (calls_tight cs newTxpoolIDs gs); [apply sound_new|apply tight_new| |done].
    cbn. by rewrite dom_empty_L. }
  assert (len (activeIDs ids) = Z.of_nat (size (peerMap ids)) + 1) as Hcount.
  { unfold len. rewrite Ht. unfold mappedIDs. rewrite size_union.
    - rewrite size_singleton, size_map_img_inj; [lia|apply Hs].
    - intros i [p Hp]%elem_of_map_img ->%elem_of_singleton.
      by pose proof (sound_mapped _ Hs _ _ Hp) as [_ ?]. }
  split; [done|]. pose proof (sound_room _ Hs) as Hroom.
  unfold maxActiveIDs in Hroom. lia.
Qed.

(** ** Room after a reclamation *)

(** Once a peer that held an identifier is reclaimed, the next
    reservation returns: a registry that was full has room again. *)
Theorem Reclaim_makes_room ids peer other :
  reachable ids →
  is_Some (peerMap ids !! ID peer) →
  len (activeIDs (Reclaim ids peer)) = len (activeIDs ids) - 1 ∧
  ∃ ids', ReserveForPeer (Reclaim ids peer) other = Done ids'.
Proof.
  intros Hs%reachable_sound [i Hpeer].
  pose proof (sound_mapped _ Hs _ _ Hpeer) as [Hactive _].
  pose proof (sound_room _ Hs) as Hroom.
  assert (len (activeIDs (Reclaim ids peer)) = len (activeIDs ids) - 1) as Hlen.
  { unfold Reclaim. rewrite Hpeer. cbn. by apply len_remove. }
  split; [done|].
  destruct (ReserveForPeer_done (Reclaim ids peer) other) as (curID & Hr & _);
    [by apply Reclaim_sound|lia|eauto].
Qed.

(** * Further properties of the reactor *)

Section ReactorMore.

Context {TxVote : Type}.
Variable UnmarshalBinaryBare : list byte → @TxpoolMessage TxVote + error.
Variable MustMarshalBinaryBare : @TxpoolMessage TxVote → list byte.
Variable CheckTxWithInfo : TxVote → TxVoteInfo → option error.

Local Abbreviation examine := (examine MustMarshalBinaryBare).
Local Abbreviation pass := (pass MustMarshalBinaryBare).
Local Abbreviation loop := (loop MustMarshalBinaryBare).
Local Abbreviation Receive := (Receive UnmarshalBinaryBare CheckTxWithInfo).
Local Abbreviation decodeMsg := (decodeMsg UnmarshalBinaryBare).
Local Abbreviation AddPeer := (AddPeer (TxVote:=TxVote)).

(** ** The inbound handler *)

(** [Receive] stops the peer exactly when decoding fails and submits to
    the pool exactly when decoding yields a [TxMessage]; it does at most
    one of the two, at most once, and leaves the reactor as it was. *)
Theorem Receive_stops_or_submits (txR : TxpoolReactor) (chID : Z) (src : Peer)
    (msgBytes : list byte) :
  let effects := (Receive txR chID src msgBytes).2 in
  (existsb isStopPeer effects = true ↔ ∃ err, decodeMsg msgBytes = inr err) ∧
  (existsb isCheckTx effects = true ↔ ∃ Tx, decodeMsg msgBytes = inl (TxMessage Tx)) ∧
  (length (List.filter isStopPeer effects) + length (List.filter isCheckTx effects)
   <= 1)%nat ∧
  (Receive txR chID src msgBytes).1 = txR.
Proof.
  cbn zeta. unfold Reactor.Receive.
  destruct (Reactor.decodeMsg _ msgBytes) as [[Tx|]|err]; cbn.
  - destruct (CheckTxWithInfo _ _); cbn; split_and!; try done; try lia.
    + split; [done|]. by intros [? ?].
    + split; eauto.
    + split; [done|]. by intros [? ?].
    + split; eauto.
  - split_and!; try done; try lia; split; try done; by intros [? ?].
  - split_and!; try done; try lia; [split; eauto|].
    split; [done|]. by intros [? ?].
Qed.

(** The results of [decodeMsg] by the size of the frame: the size error
    comes for the frames over [maxMsgSize] and for no other, with the
    frame's length in it; a frame within the limit, the empty one
    included, gets what the codec makes of it. *)
Theorem decodeMsg_results (bz : list byte) :
  (∀ size max, decodeMsg bz = inr (ExceedsMaxSize size max)
               ↔ lenBytes bz > maxMsgSize ∧ size = lenBytes bz ∧ max = maxMsgSize) ∧
  (∀ msg, decodeMsg bz = inl msg
          ↔ lenBytes bz <= maxMsgSize ∧ UnmarshalBinaryBare bz = inl msg) ∧
  (∀ err, decodeMsg bz = inr (Codec err)
          ↔ lenBytes bz <= maxMsgSize ∧ UnmarshalBinaryBare bz = inr err).
Proof.
  unfold Reactor.decodeMsg.
  destruct (decide (lenBytes bz > maxMsgSize)) as [Hover|Hfits].
  - split_and!.
    + intros size max. split; [by intros [= <- <-]|by intros (_ & -> & ->)].
    + intros msg. split; [done|lia].
    + intros err. split; [done|lia].
  - split_and!.
    + intros size max. split; [|by intros [? _]].
      by destruct (UnmarshalBinaryBare bz).
    + intros msg. split.
      * destruct (UnmarshalBinaryBare bz); [|done]. intros [= ->]. split; [lia|done].
      * by intros [_ ->].
    + intros err. split.
      * destruct (UnmarshalBinaryBare bz); [done|]. intros [= ->]. split; [lia|done].
      * by intros [_ ->].
Qed.

(** A frame over the size limit gets the peer stopped with the size
    error whatever the codec and the pool are: neither is consulted. *)
Theorem Receive_oversize (txR : TxpoolReactor) (chID : Z) (src : Peer)
    (msgBytes : list byte) :
  lenBytes msgBytes > maxMsgSize →
  Receive txR chID src msgBytes
  = (txR, [ELogError "Error decoding message";
           EStopPeerForError src (ExceedsMaxSize (lenBytes msgBytes) maxMsgSize)]) ∧
  ∀ (otherCodec : list byte → @TxpoolMessage TxVote + error)
    (otherPool : TxVote → TxVoteInfo → option error),
    Reactor.Receive otherCodec otherPool txR chID src msgBytes
    = Receive txR chID src msgBytes.
Proof.
  intros Hlen. unfold Reactor.Receive, Reactor.decodeMsg.
  destruct (decide (lenBytes msgBytes > maxMsgSize)); [done|lia].
Qed.

(** A transaction from a peer that [AddPeer] has connected is submitted
    with that peer's identifier, one of 1..65535; a transaction from a
    peer that [RemovePeer] has disconnected is submitted with
    [UnknownPeerID]. *)
Theorem Receive_provenance (txR : TxpoolReactor) (chID : Z) (src : Peer)
    (msgBytes : list byte) (Tx : TxVote) :
  reachable (ids txR) →
  decodeMsg msgBytes = inl (TxMessage Tx) →
  (∀ txR' effects,
     AddPeer txR src = Done (txR', effects) →
     1 <= GetForPeer (ids txR') src <= 65535 ∧
     List.filter isCheckTx (Receive txR' chID src msgBytes).2
     = [ECheckTxWithInfo Tx (mkInfo (GetForPeer (ids txR') src))]) ∧
  List.filter isCheckTx (Receive (RemovePeer txR src) chID src msgBytes).2
  = [ECheckTxWithInfo Tx (mkInfo UnknownPeerID)].
Proof.
  intros Hreach Hdecode.
  assert (∀ txR0, List.filter isCheckTx (Receive txR0 chID src msgBytes).2
                  = [ECheckTxWithInfo Tx (mkInfo (GetForPeer (ids txR0) src))])
    as Hsubmit.
  { intros txR0. unfold Reactor.Receive. rewrite Hdecode. cbn.
    by destruct (CheckTxWithInfo _ _). }
  split.
  - intros txR' effects Hadd. split; [|apply Hsubmit].
    unfold Reactor.AddPeer in Hadd.
    destruct (ReserveForPeer (ids txR) src) as [ids'| |] eqn:Hr; [|done..].
    injection Hadd as <- _. cbn.
    pose proof (reachable_sound _ Hreach) as Hs.
    destruct (ReserveForPeer_inv _ _ _ Hs Hr) as (_ & curID & -> & Hfree & H16 & _).
    unfold GetForPeer. cbn. rewrite lookup_insert_eq. cbn.
    assert (curID ≠ 0) by (intros ->; apply Hfree, Hs).
    unfold is_uint16 in H16. lia.
  - rewrite Hsubmit. cbn. do 3 f_equal.
    unfold GetForPeer, Reclaim.
    destruct (peerMap (ids txR) !! ID src) eqn:Hsrc; cbn; [|by rewrite Hsrc].
    by rewrite lookup_delete_eq.
Qed.

(** ** One pass of the broadcast loop *)

(** A pass that examines an entry never leaves it behind unsent: either
    it ends with the catch-up sleep and the cursor still on the entry, or
    it goes to the final [select], and then the peer is among the entry's
    senders or the entry was sent and the send succeeded. *)
Theorem pass_never_skips peer peerID next p e :
  examines next p e →
  let result := pass peer peerID next p in
  (result.2 = Continue (Some e) ∧ last result.1 = Some catchupSleep) ∨
  (result.2 = advance p ∧
   (peerID ∈ senders (pool p e) ∨
    (sendOK p = true ∧
     last result.1
     = Some (ESend peer TxpoolChannel
               (MustMarshalBinaryBare (TxMessage (tx (pool p e)))))))).
Proof.
  intros Hex. cbn zeta.
  assert (∃ pre, pass peer peerID next p
                 = (pre ++ (examine peer peerID p e).1, (examine peer peerID p e).2))
    as [pre ->].
  { destruct Hex as (Hr & Hp & [->|[-> Hfront]]); unfold Reactor.pass;
      rewrite Hr, Hp; cbn.
    - exists []. by destruct (examine _ _ _ _).
    - rewrite Hfront. exists [ETxsFront]. by destruct (examine _ _ _ _). }
  unfold Reactor.examine. destruct (peerHeight p) as [h|]; cbn.
  - destruct (decide (h < _)); cbn; [left; by rewrite last_snoc|].
    destruct (decide (peerID ∈ _)); cbn; [right; eauto|].
    destruct (sendOK p); cbn.
    + right. split; [done|]. right. by rewrite last_snoc.
    + left. split; [done|].
      rewrite (last_app _ [_; catchupSleep]). done.
  - left. by rewrite last_snoc.
Qed.

(** A pass retries the entry after the catch-up sleep, without moving the
    cursor, when the peer has no state yet (then nothing is sent) and when
    the send fails (the entry was then sent once, in vain). *)
Theorem pass_retries peer peerID next p e :
  examines next p e →
  let result := pass peer peerID next p in
  let send := ESend peer TxpoolChannel
                (MustMarshalBinaryBare (TxMessage (tx (pool p e)))) in
  (peerHeight p = None →
     existsb isSend result.1 = false ∧
     last result.1 = Some catchupSleep ∧ result.2 = Continue (Some e)) ∧
  (∀ h, peerHeight p = Some h → ¬ h < int64 (height (pool p e) - 1) →
     peerID ∉ senders (pool p e) → sendOK p = false →
     List.filter isSend result.1 = [send] ∧
     last result.1 = Some catchupSleep ∧ result.2 = Continue (Some e)).
Proof.
  intros Hex. cbn zeta.
  assert (∃ pre, existsb isSend pre = false ∧
                 List.filter isSend pre = [] ∧
                 pass peer peerID next p
                 = (pre ++ (examine peer peerID p e).1, (examine peer peerID p e).2))
    as (pre & Hpre & Hnone & ->).
  { destruct Hex as (Hr & Hp & [->|[-> Hfront]]); unfold Reactor.pass;
      rewrite Hr, Hp; cbn.
    - exists []. by destruct (examine _ _ _ _).
    - rewrite Hfront. exists [ETxsFront]. by destruct (examine _ _ _ _). }
  unfold Reactor.examine. split.
  - intros ->. cbn. by rewrite existsb_app, Hpre, last_snoc.
  - intros h -> Hguard Hsender ->. rewrite !decide_False by (done). cbn.
    rewrite List.filter_app, Hnone, (last_app _ [_; catchupSleep]). done.
Qed.

(** ** The loop as a whole *)

Lemma pass_sends peer peerID next p :
  Forall (λ eff, isSend eff = true →
                 ∃ e, (peerID ∉ senders (pool p e)) ∧
                      eff = ESend peer TxpoolChannel
                              (MustMarshalBinaryBare (TxMessage (tx (pool p e)))))
         (pass peer peerID next p).1.
Proof.
  assert (∀ e, Forall (λ eff, isSend eff = true →
                 ∃ e, (peerID ∉ senders (pool p e)) ∧
                      eff = ESend peer TxpoolChannel
                              (MustMarshalBinaryBare (TxMessage (tx (pool p e)))))
                 (examine peer peerID p e).1) as Hexamine.
  { intros e. unfold Reactor.examine. destruct (peerHeight p) as [h|]; cbn.
    - destruct (decide (h < _)); cbn; [by repeat constructor|].
      destruct (decide (peerID ∈ _)); cbn; [constructor|].
      destruct (sendOK p); cbn; repeat constructor; eauto; done.
    - by repeat constructor. }
  unfold Reactor.pass.
  destruct (negb (reactorRunning p) || negb (peerRunning p)); [constructor|].
  destruct next as [e|]; [apply Hexamine|].
  destruct (frontWake p) as [[e|]| |]; cbn; try by repeat constructor.
  specialize (Hexamine e). destruct (examine peer peerID p e). cbn in *.
  by constructor.
Qed.

(** Whatever the routine sends goes to its own peer, on the channel the
    reactor registers with [GetChannels], and is the encoding of a
    [TxMessage] with the transaction of a pool entry that, in the pass in
    which it is sent, does not have the peer among its senders. *)
Theorem loop_sends_entries_only peer peerID next (ps : list (@Pass TxVote)) :
  Forall (λ eff, isSend eff = true →
                 ∃ p e ch, p ∈ ps ∧ ch ∈ GetChannels ∧
                           (peerID ∉ senders (pool p e)) ∧
                           eff = ESend peer (p2p.ID ch)
                                   (MustMarshalBinaryBare (TxMessage (tx (pool p e)))))
         (loop peer peerID next ps).1.
Proof.
  revert next. induction ps as [|p ps IH]; intros next; [constructor|].
  cbn [Reactor.loop]. pose proof (pass_sends peer peerID next p) as Hpass.
  destruct (pass peer peerID next p) as [effects flow]. cbn in Hpass.
  assert (Forall (λ eff, isSend eff = true →
                 ∃ p0 e ch, p0 ∈ p :: ps ∧ ch ∈ GetChannels ∧
                           (peerID ∉ senders (pool p0 e)) ∧
                           eff = ESend peer (p2p.ID ch)
                                   (MustMarshalBinaryBare (TxMessage (tx (pool p0 e)))))
                 effects) as Hhere.
  { eapply Forall_impl; [exact Hpass|]. intros eff Heff Hsend.
    destruct (Heff Hsend) as (e & Hsender & ->).
    exists p, e, (p2p.mkChannel TxpoolChannel 5).
    split_and!; [left|unfold GetChannels; left|done|done]. }
  destruct flow as [next'|]; [|exact Hhere].
  specialize (IH next'). destruct (loop peer peerID next' ps) as [effects' routine].
  cbn in *. apply Forall_app. split; [exact Hhere|].
  eapply Forall_impl; [exact IH|]. intros eff Heff Hsend.
  destruct (Heff Hsend) as (p0 & e & ch & Hp0 & Hrest).
  exists p0, e, ch. split; [by right|exact Hrest].
Qed.

(** The routine returns only in a pass that shows it a reason to, and it
    has returned once a pass finds the reactor or the peer stopped. *)
Theorem loop_returns_on_shutdown peer peerID next (ps : list (@Pass TxVote)) :
  ((loop peer peerID next ps).2 = Returned →
   Exists (λ p, shutdownSeen p = true) ps) ∧
  (Exists (λ p, reactorRunning p = false ∨ peerRunning p = false) ps →
   (loop peer peerID next ps).2 = Returned).
Proof.
  split.
  - revert next. induction ps as [|p ps IH]; intros next; [done|].
    cbn [Reactor.loop].
    destruct (pass peer peerID next p) as [effects flow] eqn:Hpass.
    destruct flow as [next'|].
    + specialize (IH next'). destruct (loop peer peerID next' ps) as [effects' routine].
      cbn in *. intros Hret. right. by apply IH.
    + intros _. left. unfold shutdownSeen. unfold Reactor.pass in Hpass.
      destruct (negb (reactorRunning p) || negb (peerRunning p)); [done|].
      cbn [orb].
      assert (∀ e effects, examine peer peerID p e = (effects, Return) →
                           quit (nextWake p) = true) as Hexamine.
      { intros e effects'. unfold Reactor.examine, advance.
        destruct (peerHeight p) as [h|]; [|done].
        destruct (decide (h < _)); [done|].
        destruct (decide (peerID ∈ _)); [by destruct (nextWake p)|].
        destruct (sendOK p); [by destruct (nextWake p)|done]. }
      destruct next as [e|].
      * rewrite (Hexamine _ _ Hpass). apply orb_true_r.
      * destruct (frontWake p) as [[e|]| |]; [|done..].
        destruct (examine peer peerID p e) as [effects' flow] eqn:Hexam.
        injection Hpass as _ ->. rewrite (Hexamine _ _ Hexam). apply orb_true_r.
  - intros Hstop. revert next.
    induction Hstop as [p ps Hp|p ps _ IH]; intros next; cbn [Reactor.loop].
    + unfold Reactor.pass.
      assert (negb (reactorRunning p) || negb (peerRunning p) = true) as ->; [|done].
      destruct Hp as [-> | ->]; [done|apply orb_true_r].
    + destruct (pass peer peerID next p) as [effects [next'|]]; [|done].
      specialize (IH next'). by destruct (loop peer peerID next' ps).
Qed.

End ReactorMore.

(** * The further properties at concrete inputs *)

Lemma churned_reserve :
  ReserveForPeer churned (mkPeer "d")
  = Done (mkIDs {["b" := 2; "c" := 3; "d" := 4]} 5 {[0; 2; 3; 4]}).
Proof. vm_compute. reflexivity. Qed.

Lemma reserve_then_lookup_witness :
  1 <= GetForPeer (mkIDs {["b" := 2; "c" := 3; "d" := 4]} 5 {[0; 2; 3; 4]})
         (mkPeer "d") <= 65535 ∧
  GetForPeer (mkIDs {["b" := 2; "c" := 3; "d" := 4]} 5 {[0; 2; 3; 4]}) (mkPeer "b")
  = GetForPeer churned (mkPeer "b").
Proof.
  destruct (reserve_then_lookup churned (mkPeer "d") _ churned_reachable
              churned_reserve) as (Hrange & _ & _ & Hothers & _).
  split; [exact Hrange|]. by apply Hothers.
Defined.

Lemma lookup_unknown_iff_witness :
  GetForPeer churned (mkPeer "a") = UnknownPeerID.
Proof.
  apply (lookup_unknown_iff churned (mkPeer "a") churned_reachable).
  vm_compute. reflexivity.
Defined.

Lemma distinct_peers_distinct_ids_witness :
  is_Some (peerMap churned !! "b") ∧
  GetForPeer churned (mkPeer "b") ≠ GetForPeer churned (mkPeer "c").
Proof.
  assert (is_Some (peerMap churned !! "b")) as Hb by (by exists 2).
  split; [exact Hb|].
  by apply (distinct_peers_distinct_ids churned (mkPeer "b") (mkPeer "c")
              churned_reachable Hb).
Defined.

Lemma AddPeer_RemovePeer_roundtrip_witness :
  peerMap (ids (RemovePeer
                  (mkReactor (mkConfig false)
                     (mkIDs {["b" := 2; "c" := 3; "d" := 4]} 5 {[0; 2; 3; 4]}))
                  (mkPeer "d")))
  = peerMap churned ∧
  activeIDs (ids (RemovePeer
                    (mkReactor (mkConfig false)
                       (mkIDs {["b" := 2; "c" := 3; "d" := 4]} 5 {[0; 2; 3; 4]}))
                    (mkPeer "d")))
  = activeIDs churned.
Proof.
  destruct (AddPeer_RemovePeer_roundtrip (TxVote:=list byte) quietReactor
              (mkReactor (mkConfig false)
                 (mkIDs {["b" := 2; "c" := 3; "d" := 4]} 5 {[0; 2; 3; 4]}))
              (mkPeer "d") [EGoBroadcast (mkPeer "d")] churned_reachable)
    as (_ & _ & Hmap & Hactive & _).
  - vm_compute. reflexivity.
  - vm_compute. reflexivity.
  - by split.
Defined.

Lemma grants_sequential_witness :
  grantID <$> [mkGrant (mkPeer "a") 1 {[0]}; mkGrant (mkPeer "b") 2 {[0; 1]};
               mkGrant (mkPeer "c") 3 {[0; 1; 2]}]
  = seqZ 1 3.
Proof.
  apply (grants_sequential _ _ _ churned_run). cbn. lia.
Defined.

Lemma nextPeerID_probes_bounded_witness :
  nextPeerID churned ≠ Spin ∧
  ∀ curID ids',
    nextPeerID churned = Done (curID, ids') →
    ∃ k, 0 <= k <= len (activeIDs churned) ∧
         curID = uint16 (nextID churned + k) ∧
         (∀ j, 0 <= j < k → uint16 (nextID churned + j) ∈ activeIDs churned) ∧
         ids' = mkIDs (peerMap churned) (uint16 (curID + 1)) (activeIDs churned).
Proof. exact (nextPeerID_probes_bounded churned churned_reachable). Defined.

Lemma active_count_witness :
  len (activeIDs churned) = Z.of_nat (size (peerMap churned)) + 1 ∧
  Z.of_nat (size (peerMap churned)) <= 65534.
Proof.
  apply (active_count _ _ _ churned_run). vm_compute. reflexivity.
Defined.

Lemma Receive_oversize_witness :
  Receive demoUnmarshal demoCheckTx quietReactor TxpoolChannel (mkPeer "b")
    (x00 :: bigFrame)
  = (quietReactor,
     [ELogError "Error decoding message";
      EStopPeerForError (mkPeer "b")
        (ExceedsMaxSize (lenBytes (x00 :: bigFrame)) maxMsgSize)]).
Proof.
  apply (Receive_oversize demoUnmarshal demoCheckTx quietReactor TxpoolChannel
           (mkPeer "b") (x00 :: bigFrame)).
  rewrite bigFrame_cons_len. lia.
Defined.

Lemma Receive_provenance_witness :
  List.filter isCheckTx
    (Receive demoUnmarshal demoCheckTx (RemovePeer quietReactor (mkPeer "b"))
       TxpoolChannel (mkPeer "b") [x01]).2
  = [ECheckTxWithInfo [x01] (mkInfo UnknownPeerID)].
Proof.
  apply (Receive_provenance demoUnmarshal demoCheckTx quietReactor TxpoolChannel
           (mkPeer "b") [x01] [x01] churned_reachable).
  reflexivity.
Defined.

Lemma demoPass_examines h : examines (Some 0%nat) (demoPass h) 0%nat.
Proof. split_and!; [done|done|by left]. Qed.

Lemma pass_never_skips_witness :
  ((pass demoMarshal (mkPeer "b") 2 (Some 0%nat) (demoPass (Some 7))).2
   = Continue (Some 0%nat) ∧
   last (pass demoMarshal (mkPeer "b") 2 (Some 0%nat) (demoPass (Some 7))).1
   = Some catchupSleep) ∨
  ((pass demoMarshal (mkPeer "b") 2 (Some 0%nat) (demoPass (Some 7))).2
   = advance (demoPass (Some 7)) ∧
   (2 ∈ senders (pool (demoPass (Some 7)) 0%nat) ∨
    (sendOK (demoPass (Some 7)) = true ∧
     last (pass demoMarshal (mkPeer "b") 2 (Some 0%nat) (demoPass (Some 7))).1
     = Some (ESend (mkPeer "b") TxpoolChannel
               (demoMarshal (TxMessage (tx (pool (demoPass (Some 7)) 0%nat)))))))).
Proof.
  exact (pass_never_skips demoMarshal (mkPeer "b") 2 (Some 0%nat)
           (demoPass (Some 7)) 0%nat (demoPass_examines _)).
Defined.

Lemma pass_retries_witness :
  existsb isSend (pass demoMarshal (mkPeer "b") 2 (Some 0%nat) (demoPass None)).1
  = false ∧
  last (pass demoMarshal (mkPeer "b") 2 (Some 0%nat) (demoPass None)).1
  = Some catchupSleep ∧
  (pass demoMarshal (mkPeer "b") 2 (Some 0%nat) (demoPass None)).2
  = Continue (Some 0%nat).
Proof.
  destruct (pass_retries demoMarshal (mkPeer "b") 2 (Some 0%nat)
              (demoPass None) 0%nat (demoPass_examines _)) as [Hnostate _].
  by apply Hnostate.
Defined.

Lemma Reclaim_makes_room_witness :
  len (activeIDs (Reclaim churned (mkPeer "b"))) = len (activeIDs churned) - 1 ∧
  ∃ ids', ReserveForPeer (Reclaim churned (mkPeer "b")) (mkPeer "d") = Done ids'.
Proof.
  apply (Reclaim_makes_room churned (mkPeer "b") (mkPeer "d") churned_reachable).
  by exists 2.
Defined.
